(** * Best-Fit fixed-partition simulator: model and verification

    Shallow embedding of [BestFitSimulatorInC++.cpp].  The three global
    vectors are one record that every operation takes and returns, [cout]
    is a list of messages, [cin] is a list of integers fed one at a time to
    the state machine of [main], C++ [int] is [Z] with two's-complement
    wrap-around written out, and [double] is the binary64 of [PrimFloat]. *)

From Stdlib Require Import ZArith Lia Bool Floats Uint63.
From stdpp Require Import base tactics option list numbers.

Local Open Scope Z_scope.

(** ** Machine integers *)

Definition INT_MAX : Z := 2147483647.
Definition INT_MIN : Z := -2147483648.

(** The value of a 32-bit two's-complement [int] holding [z]. *)
Definition wrap (z : Z) : Z := (z - INT_MIN) `mod` 2 ^ 32 + INT_MIN.

Definition int_add (a b : Z) : Z := wrap (a + b).
Definition int_sub (a b : Z) : Z := wrap (a - b).

(** The values an [int] can hold; what [cin >> int] delivers. *)
Definition in_int (z : Z) : Prop := INT_MIN ≤ z ≤ INT_MAX.

(** [(double)z] for an [int] (or a [size_t] below 2^63). *)
Definition to_double (z : Z) : float :=
  if z <? 0 then PrimFloat.opp (PrimFloat.of_uint63 (Uint63.of_Z (- z)))
  else PrimFloat.of_uint63 (Uint63.of_Z z).

(** ** Data: [struct Partition], [struct Job], the three global vectors *)

Module Partition.
Record t : Type := mk {
  id : Z;
  size : Z;
  isFree : bool;
  jobNumber : Z;
  jobSize : Z;
  internalFragment : Z
}.
End Partition.

Module Job.
Record t : Type := mk {
  jobNumber : Z;
  jobSize : Z
}.
End Job.

Record Globals : Type := mkGlobals {
  memory : list Partition.t;
  waitingQueue : list Job.t;
  deallocatedJobs : list Job.t
}.

(** ** Output *)

(** What [showStatus] prints: one row per partition, the total, both
    lists and the two averages. *)
Record Row : Type := mkRow {
  row_id : Z;
  row_size : Z;
  row_used : bool;
  row_job : option (Z * Z);
  row_fragment : Z
}.

Record Report : Type := mkReport {
  rows : list Row;
  totalIF : Z;
  waiting : list (Z * Z);
  deallocated : list Z;
  avgInternal : float;
  utilization : float
}.

Inductive Msg : Type :=
| MsgInvalidSize
| MsgAllocated (jobNumber partitionId : Z)
| MsgQueued (jobNumber : Z)
| MsgWaitingAllocated (jobNumber partitionId : Z)
| MsgDeallocated (jobNumber partitionId : Z)
| MsgNotFound
| MsgStatus (r : Report).

(** ** [showStatus] *)

Definition showRow (p : Partition.t) : Row :=
  {| row_id := Partition.id p;
     row_size := Partition.size p;
     row_used := negb (Partition.isFree p);
     row_job := if Partition.isFree p then None
                else Some (Partition.jobNumber p, Partition.jobSize p);
     row_fragment := if Partition.isFree p then 0 else Partition.internalFragment p |}.

(** First loop of [showStatus]: [totalIF] and [usedCount]. *)
Definition fragmentStep (acc : Z * Z) (p : Partition.t) : Z * Z :=
  if Partition.isFree p then acc
  else (int_add (fst acc) (Partition.internalFragment p), int_add (snd acc) 1).

(** Second loop of [showStatus]: the running [utilization]. *)
Definition utilizationStep (u : float) (p : Partition.t) : float :=
  if Partition.isFree p then u
  else PrimFloat.add u
         (PrimFloat.mul
            (PrimFloat.div (to_double (Partition.jobSize p)) (to_double (Partition.size p)))
            (to_double 100)).

Definition memoryUtilization (mem : list Partition.t) : float :=
  PrimFloat.div (fold_left utilizationStep mem (to_double 0))
                (to_double (Z.of_nat (length mem))).

Definition showStatus (g : Globals) : Report :=
  let '(total, usedCount) := fold_left fragmentStep (memory g) (0, 0) in
  {| rows := showRow <$> memory g;
     totalIF := total;
     waiting := (λ j, (Job.jobNumber j, Job.jobSize j)) <$> waitingQueue g;
     deallocated := Job.jobNumber <$> deallocatedJobs g;
     avgInternal := if usedCount =? 0 then to_double 0
                    else PrimFloat.div (to_double total) (to_double usedCount);
     utilization := memoryUtilization (memory g) |}.

(** ** The best-fit scan

    The loop [for (int i = 0; i < memory.size(); i++)] that [allocateJob]
    and [tryAllocateWaiting] both contain, as a recursion over the
    partitions still to visit; [i] is the index of the head, [bestIndex]
    and [smallestFit] are the loop's two variables.  [i] never leaves the
    range of [int] because it is bounded by the number of partitions. *)
Fixpoint scanFrom (jobSize : Z) (rest : list Partition.t)
         (i bestIndex smallestFit : Z) : Z :=
  match rest with
  | [] => bestIndex
  | p :: rest' =>
      if Partition.isFree p && (jobSize <=? Partition.size p) then
        let leftover := int_sub (Partition.size p) jobSize in
        if leftover <? smallestFit
        then scanFrom jobSize rest' (i + 1) i leftover
        else scanFrom jobSize rest' (i + 1) bestIndex smallestFit
      else scanFrom jobSize rest' (i + 1) bestIndex smallestFit
  end.

Definition bestFitScan (jobSize : Z) (mem : list Partition.t) : Z :=
  scanFrom jobSize mem 0 (-1) INT_MAX.

(** The four assignments that mark [memory[bestIndex]] used. *)
Definition occupy (job : Job.t) (p : Partition.t) : Partition.t :=
  {| Partition.id := Partition.id p;
     Partition.size := Partition.size p;
     Partition.isFree := false;
     Partition.jobNumber := Job.jobNumber job;
     Partition.jobSize := Job.jobSize job;
     Partition.internalFragment := int_sub (Partition.size p) (Job.jobSize job) |}.

Definition idAt (mem : list Partition.t) (i : nat) : Z :=
  from_option Partition.id 0 (mem !! i).

(** ** [allocateJob] *)

Definition allocateJob (job : Job.t) (g : Globals) : Globals * list Msg :=
  let bestIndex := bestFitScan (Job.jobSize job) (memory g) in
  if bestIndex =? -1 then
    ({| memory := memory g;
        waitingQueue := waitingQueue g ++ [job];
        deallocatedJobs := deallocatedJobs g |},
     [MsgQueued (Job.jobNumber job)])
  else
    let mem' := alter (occupy job) (Z.to_nat bestIndex) (memory g) in
    ({| memory := mem';
        waitingQueue := waitingQueue g;
        deallocatedJobs := deallocatedJobs g |},
     [MsgAllocated (Job.jobNumber job) (idAt mem' (Z.to_nat bestIndex))]).

(** ** [tryAllocateWaiting] *)

(** The loop [for (auto &j : waitingQueue)]: [queue] is what is still to
    visit, [remaining] the local vector of the same name. *)
Fixpoint sweepLoop (queue : list Job.t) (mem : list Partition.t)
         (remaining : list Job.t) (out : list Msg)
  : list Partition.t * list Job.t * list Msg :=
  match queue with
  | [] => (mem, remaining, out)
  | j :: queue' =>
      let bestIndex := bestFitScan (Job.jobSize j) mem in
      if negb (bestIndex =? -1) then
        let mem' := alter (occupy j) (Z.to_nat bestIndex) mem in
        sweepLoop queue' mem' remaining
          (out ++ [MsgWaitingAllocated (Job.jobNumber j) (idAt mem' (Z.to_nat bestIndex))])
      else sweepLoop queue' mem (remaining ++ [j]) out
  end.

Definition tryAllocateWaiting (g : Globals) : Globals * list Msg :=
  match waitingQueue g with
  | [] => (g, [])
  | _ :: _ =>
      let '(mem', remaining, out) := sweepLoop (waitingQueue g) (memory g) [] [] in
      ({| memory := mem';
          waitingQueue := remaining;
          deallocatedJobs := deallocatedJobs g |}, out)
  end.

(** ** [deallocateJob] *)

(** The four assignments that reset [p] to the free state. *)
Definition vacate (p : Partition.t) : Partition.t :=
  {| Partition.id := Partition.id p;
     Partition.size := Partition.size p;
     Partition.isFree := true;
     Partition.jobNumber := -1;
     Partition.jobSize := 0;
     Partition.internalFragment := 0 |}.

Definition holds (jobNumber : Z) (p : Partition.t) : bool :=
  negb (Partition.isFree p) && (Partition.jobNumber p =? jobNumber).

(** The loop [for (auto &p : memory)]: [visited] are the partitions
    already passed over, [rest] those still to visit. *)
Fixpoint deallocateFrom (jobNumber : Z) (visited rest : list Partition.t)
         (g : Globals) : Globals * list Msg :=
  match rest with
  | [] => (g, [MsgNotFound])
  | p :: rest' =>
      if holds jobNumber p then
        let g1 := {| memory := visited ++ vacate p :: rest';
                     waitingQueue := waitingQueue g;
                     deallocatedJobs :=
                       deallocatedJobs g
                         ++ [Job.mk (Partition.jobNumber p) (Partition.jobSize p)] |} in
        let '(g2, out) := tryAllocateWaiting g1 in
        (g2, MsgDeallocated jobNumber (Partition.id p) :: out)
      else deallocateFrom jobNumber (visited ++ [p]) rest' g
  end.

Definition deallocateJob (jobNumber : Z) (g : Globals) : Globals * list Msg :=
  deallocateFrom jobNumber [] (memory g) g.

(** ** [main]

    [main] blocks on [cin] in five places.  [Phase] names the place, with
    the locals that are live there, and [feed] runs the program from one
    read to the next on the integer just read. *)
Inductive Phase : Type :=
| ReadCount
| ReadPartitionSize (i n : Z)
| ReadChoice
| ReadJobSize (jobNumber : Z)
| ReadJobNumber
| Exited.

Record Machine : Type := mkMachine {
  phase : Phase;
  globals : Globals;
  jobCounter : Z;
  output : list Msg
}.

Definition initial : Machine :=
  {| phase := ReadCount;
     globals := {| memory := []; waitingQueue := []; deallocatedJobs := [] |};
     jobCounter := 1;
     output := [] |}.

Definition pushPartition (p : Partition.t) (g : Globals) : Globals :=
  {| memory := memory g ++ [p];
     waitingQueue := waitingQueue g;
     deallocatedJobs := deallocatedJobs g |}.

Definition feed (m : Machine) (tok : Z) : Machine :=
  match phase m with
  | ReadCount =>
      {| phase := if 0 <? tok then ReadPartitionSize 0 tok else ReadChoice;
         globals := globals m; jobCounter := jobCounter m; output := output m |}
  | ReadPartitionSize i n =>
      if tok <=? 0 then
        {| phase := ReadPartitionSize i n;
           globals := globals m; jobCounter := jobCounter m;
           output := output m ++ [MsgInvalidSize] |}
      else
        {| phase := if int_add i 1 <? n then ReadPartitionSize (int_add i 1) n
                    else ReadChoice;
           globals := pushPartition (Partition.mk (int_add i 1) tok true (-1) 0 0) (globals m);
           jobCounter := jobCounter m; output := output m |}
  | ReadChoice =>
      if tok =? 1 then
        {| phase := ReadJobSize (jobCounter m);
           globals := globals m;
           jobCounter := int_add (jobCounter m) 1;
           output := output m |}
      else if tok =? 2 then
        {| phase := ReadJobNumber;
           globals := globals m; jobCounter := jobCounter m; output := output m |}
      else if tok =? 3 then
        {| phase := ReadChoice;
           globals := globals m; jobCounter := jobCounter m;
           output := output m ++ [MsgStatus (showStatus (globals m))] |}
      else if tok =? 4 then
        {| phase := Exited;
           globals := globals m; jobCounter := jobCounter m; output := output m |}
      else m
  | ReadJobSize j =>
      if tok <=? 0 then
        {| phase := ReadJobSize j;
           globals := globals m; jobCounter := jobCounter m;
           output := output m ++ [MsgInvalidSize] |}
      else
        let '(g', out) := allocateJob (Job.mk j tok) (globals m) in
        {| phase := ReadChoice;
           globals := g'; jobCounter := jobCounter m; output := output m ++ out |}
  | ReadJobNumber =>
      let '(g', out) := deallocateJob tok (globals m) in
      {| phase := ReadChoice;
         globals := g'; jobCounter := jobCounter m; output := output m ++ out |}
  | Exited => m
  end.

Definition run (inputs : list Z) : Machine := fold_left feed inputs initial.

(** * Specification-level notions

    The predicates the theorems are stated with.  None of them is used by
    the model above. *)

(** ** Best fit *)

(** [p], at position [k] of the pool, can take a request of size [s]. *)
Definition candidate (mem : list Partition.t) (s : Z) (k : nat) (p : Partition.t) : Prop :=
  mem !! k = Some p ∧ Partition.isFree p = true ∧ s ≤ Partition.size p.

(** [p] at position [k] is the candidate of least leftover, and the first
    such in the pool. *)
Definition bestCandidate (mem : list Partition.t) (s : Z) (k : nat) (p : Partition.t) : Prop :=
  candidate mem s k p ∧
  ∀ k' p', candidate mem s k' p' →
    Partition.size p - s < Partition.size p' - s ∨
    (Partition.size p - s = Partition.size p' - s ∧ (k ≤ k')%nat).

(** What [bestIndex] and [smallestFit] say once the partitions of [mem]
    have been visited. *)
Definition scanned (s : Z) (mem : list Partition.t) (b f : Z) : Prop :=
  (b = -1 ∧ f = INT_MAX ∧ ∀ k p, ¬ candidate mem s k p) ∨
  (∃ k p, b = Z.of_nat k ∧ bestCandidate mem s k p ∧ f = Partition.size p - s).

(** Partition ids as [main] hands them out: position plus one. *)
Definition idsInOrder (mem : list Partition.t) : Prop :=
  ∀ k p, mem !! k = Some p → Partition.id p = Z.of_nat k + 1.

(** Every capacity is a value of type [int]. *)
Definition sizesInInt (mem : list Partition.t) : Prop :=
  Forall (λ p, in_int (Partition.size p)) mem.

(** [b] is [-1] or the position of a free partition that is large enough
    for [s]. *)
Definition picked (mem : list Partition.t) (s b : Z) : Prop :=
  b = -1 ∨ ∃ k p, b = Z.of_nat k ∧ candidate mem s k p.

(** ** One retry pass *)

(** One pass over the queue, as the specification words it: the jobs are
    taken in queue order, each exactly once; a job whose best fit exists in
    the pool as it is at that moment is placed there, and the rest of the
    queue sees the pool so changed; a job without a candidate stays, and
    the rest of the queue sees the pool unchanged.  [placements] lists the
    jobs placed with the position each went to, [remaining] the jobs that
    stay, both in visiting order. *)
Inductive Sweep : list Partition.t → list Job.t →
                  list Partition.t → list Job.t → list (Job.t * nat) → Prop :=
| Sweep_done mem : Sweep mem [] mem [] []
| Sweep_placed mem j queue k p mem' remaining placements :
    bestCandidate mem (Job.jobSize j) k p →
    Sweep (alter (occupy j) k mem) queue mem' remaining placements →
    Sweep mem (j :: queue) mem' remaining ((j, k) :: placements)
| Sweep_failed mem j queue mem' remaining placements :
    (∀ k p, ¬ candidate mem (Job.jobSize j) k p) →
    Sweep mem queue mem' remaining placements →
    Sweep mem (j :: queue) mem' (j :: remaining) placements.

(** The messages of a pass: one per placement, with the partition's id. *)
Definition sweepMsgs (mem : list Partition.t) (placements : list (Job.t * nat)) : list Msg :=
  (λ jk, MsgWaitingAllocated (Job.jobNumber jk.1) (idAt mem jk.2)) <$> placements.

(** ** Well-formed pools and queues *)

(** What the specification asks of every partition. *)
Definition fragOk (p : Partition.t) : Prop :=
  0 ≤ Partition.internalFragment p ∧
  (Partition.isFree p = true → Partition.internalFragment p = 0).

(** What [main] maintains of every partition: a positive capacity in the
    range of [int]; when free, the three fields at their reset values;
    when in use, a positive job size within the capacity and the fragment
    equal to the difference. *)
Definition partOk (p : Partition.t) : Prop :=
  0 < Partition.size p ≤ INT_MAX ∧
  if Partition.isFree p
  then Partition.jobNumber p = -1 ∧ Partition.jobSize p = 0 ∧
       Partition.internalFragment p = 0
  else 0 < Partition.jobSize p ≤ Partition.size p ∧
       Partition.internalFragment p = Partition.size p - Partition.jobSize p.

(** Every queued job has the positive size [main] insists on. *)
Definition queueOk (queue : list Job.t) : Prop :=
  Forall (λ j, 0 < Job.jobSize j) queue.

(** ** [place] with its precondition checked

    The specification gives [place] a precondition -- the partition is
    free and [capacity ≥ job.size] -- and calls its violation a
    programming error.  The definitions below are [allocateJob],
    [tryAllocateWaiting], [deallocateJob] and [main] again, word for word,
    except that marking a partition used goes through [placeChecked],
    which answers [None] (the programming error) when the index is not one
    of the pool, the partition is not free, the job does not fit, or the
    fragment comes out negative. *)
Definition placeChecked (job : Job.t) (bestIndex : Z) (mem : list Partition.t)
  : option (list Partition.t) :=
  if bestIndex <? 0 then None
  else match mem !! Z.to_nat bestIndex with
       | None => None
       | Some p =>
           if Partition.isFree p && (Job.jobSize job <=? Partition.size p)
              && (0 <=? int_sub (Partition.size p) (Job.jobSize job))
           then Some (alter (occupy job) (Z.to_nat bestIndex) mem)
           else None
       end.

Definition allocateJobChecked (job : Job.t) (g : Globals) : option (Globals * list Msg) :=
  let bestIndex := bestFitScan (Job.jobSize job) (memory g) in
  if bestIndex =? -1 then
    Some ({| memory := memory g;
             waitingQueue := waitingQueue g ++ [job];
             deallocatedJobs := deallocatedJobs g |},
          [MsgQueued (Job.jobNumber job)])
  else
    match placeChecked job bestIndex (memory g) with
    | None => None
    | Some mem' =>
        Some ({| memory := mem';
                 waitingQueue := waitingQueue g;
                 deallocatedJobs := deallocatedJobs g |},
              [MsgAllocated (Job.jobNumber job) (idAt mem' (Z.to_nat bestIndex))])
    end.

Fixpoint sweepLoopChecked (queue : list Job.t) (mem : list Partition.t)
         (remaining : list Job.t) (out : list Msg)
  : option (list Partition.t * list Job.t * list Msg) :=
  match queue with
  | [] => Some (mem, remaining, out)
  | j :: queue' =>
      let bestIndex := bestFitScan (Job.jobSize j) mem in
      if negb (bestIndex =? -1) then
        match placeChecked j bestIndex mem with
        | None => None
        | Some mem' =>
            sweepLoopChecked queue' mem' remaining
              (out ++ [MsgWaitingAllocated (Job.jobNumber j) (idAt mem' (Z.to_nat bestIndex))])
        end
      else sweepLoopChecked queue' mem (remaining ++ [j]) out
  end.

Definition tryAllocateWaitingChecked (g : Globals) : option (Globals * list Msg) :=
  match waitingQueue g with
  | [] => Some (g, [])
  | _ :: _ =>
      match sweepLoopChecked (waitingQueue g) (memory g) [] [] with
      | None => None
      | Some (mem', remaining, out) =>
          Some ({| memory := mem';
                   waitingQueue := remaining;
                   deallocatedJobs := deallocatedJobs g |}, out)
      end
  end.

Fixpoint deallocateFromChecked (jobNumber : Z) (visited rest : list Partition.t)
         (g : Globals) : option (Globals * list Msg) :=
  match rest with
  | [] => Some (g, [MsgNotFound])
  | p :: rest' =>
      if holds jobNumber p then
        let g1 := {| memory := visited ++ vacate p :: rest';
                     waitingQueue := waitingQueue g;
                     deallocatedJobs :=
                       deallocatedJobs g
                         ++ [Job.mk (Partition.jobNumber p) (Partition.jobSize p)] |} in
        match tryAllocateWaitingChecked g1 with
        | None => None
        | Some (g2, out) => Some (g2, MsgDeallocated jobNumber (Partition.id p) :: out)
        end
      else deallocateFromChecked jobNumber (visited ++ [p]) rest' g
  end.

Definition feedChecked (m : Machine) (tok : Z) : option Machine :=
  match phase m with
  | ReadJobSize j =>
      if tok <=? 0 then Some (feed m tok)
      else match allocateJobChecked (Job.mk j tok) (globals m) with
           | None => None
           | Some (g', out) =>
               Some {| phase := ReadChoice;
                       globals := g'; jobCounter := jobCounter m;
                       output := output m ++ out |}
           end
  | ReadJobNumber =>
      match deallocateFromChecked tok [] (memory (globals m)) (globals m) with
      | None => None
      | Some (g', out) =>
          Some {| phase := ReadChoice;
                  globals := g'; jobCounter := jobCounter m;
                  output := output m ++ out |}
      end
  | _ => Some (feed m tok)
  end.

Fixpoint runFromChecked (m : Machine) (inputs : list Z) : option Machine :=
  match inputs with
  | [] => Some m
  | tok :: rest =>
      match feedChecked m tok with
      | None => None
      | Some m' => runFromChecked m' rest
      end
  end.

(** ** What [main] maintains *)

(** During set-up: nothing is in the pool before the count is read, and
    while sizes are read the loop counter is the number of partitions
    pushed so far and stays below the count. *)
Definition setupOk (m : Machine) : Prop :=
  match phase m with
  | ReadCount => memory (globals m) = []
  | ReadPartitionSize i n =>
      0 ≤ i < n ∧ n ≤ INT_MAX ∧ Z.of_nat (length (memory (globals m))) = i
  | _ => True
  end.

(** The invariant of [main] on the pool, the queue and the set-up loop. *)
Definition machineOk (m : Machine) : Prop :=
  Forall partOk (memory (globals m)) ∧
  queueOk (waitingQueue (globals m)) ∧
  setupOk m.

(** ** Job numbers *)

(** The job number a message of [allocateJob] announces. *)
Definition submittedOf (msg : Msg) : option Z :=
  match msg with
  | MsgAllocated j _ | MsgQueued j => Some j
  | _ => None
  end.

(** The job numbers [allocateJob] has been called with, in order, as the
    output shows them. *)
Definition submitted (out : list Msg) : list Z := omap submittedOf out.

(** The job number taken from [jobCounter] whose size is still being
    asked for. *)
Definition pending (ph : Phase) : list Z :=
  match ph with
  | ReadJobSize j => [j]
  | _ => []
  end.

(** All job numbers [main] has assigned so far, in order. *)
Definition issued (m : Machine) : list Z := submitted (output m) ++ pending (phase m).

(** The job numbers held by partitions, and those in the queue. *)
Definition occupants (mem : list Partition.t) : list Z :=
  Partition.jobNumber <$> filter (λ p, Partition.isFree p = false) mem.

(** The job numbers in the queue, in queue order. *)
Definition queued (queue : list Job.t) : list Z := Job.jobNumber <$> queue.

(** The job numbers that are somewhere: in a partition or in the queue. *)
Definition live (g : Globals) : list Z :=
  occupants (memory g) ++ queued (waitingQueue g).

(** The first [K] values of a counter that starts at [1] and is
    incremented as an [int]. *)
Definition numbering (K : nat) : list Z := (λ k, wrap (Z.of_nat k)) <$> seq 1 K.

(** The numbers held by partitions and queued jobs are all different, and
    each has been announced by [allocateJob]. *)
Definition liveOk (m : Machine) : Prop :=
  NoDup (live (globals m)) ∧
  ∀ x, x ∈ live (globals m) → x ∈ submitted (output m).

(** ** Pool creation *)

(** The ids [1], [2], ... of a pool of [len] partitions. *)
Definition idsUpTo (len : nat) : list Z := (λ k, Z.of_nat k + 1) <$> seq 0 len.

(** The pool [main] builds from a count [n]: while sizes are being read
    the loop counter is the number of partitions pushed and is below [n];
    afterwards there are [n] partitions, none if [n ≤ 0]; the ids are
    [1], [2], ... in pool order and every capacity is positive. *)
Definition poolBuilt (n : Z) (m : Machine) : Prop :=
  match phase m with
  | ReadCount => False
  | ReadPartitionSize i n' =>
      n' = n ∧ 0 ≤ i < n ∧ Z.of_nat (length (memory (globals m))) = i
  | _ => length (memory (globals m)) = Z.to_nat n
  end ∧
  Partition.id <$> memory (globals m) = idsUpTo (length (memory (globals m))) ∧
  Forall (λ s, 0 < s) (Partition.size <$> memory (globals m)).

(** Set-up is over. *)
Definition inMenu (ph : Phase) : Prop :=
  match ph with
  | ReadCount | ReadPartitionSize _ _ => False
  | _ => True
  end.

(** ** Utilization *)

(** What a partition in use adds: job size over capacity, times 100. *)
Definition share (p : Partition.t) : float :=
  PrimFloat.mul
    (PrimFloat.div (to_double (Partition.jobSize p)) (to_double (Partition.size p)))
    (to_double 100).

(** ** Notions for the further properties *)

(** The job number a message of [deallocateJob] announces the release of. *)
Definition releasedOf (msg : Msg) : option Z :=
  match msg with
  | MsgDeallocated j _ => Some j
  | _ => None
  end.

(** The job numbers released, in order, as the output shows them. *)
Definition released (out : list Msg) : list Z := omap releasedOf out.

(** The job numbers in the deallocation history, in order. *)
Definition history (g : Globals) : list Z := Job.jobNumber <$> deallocatedJobs g.

(** No queued job fits a free partition of the pool. *)
Definition starved (mem : list Partition.t) (queue : list Job.t) : Prop :=
  ∀ j, j ∈ queue → ∀ k p, ¬ candidate mem (Job.jobSize j) k p.

(** The fragments of the partitions in use, in pool order. *)
Definition usedFragments (mem : list Partition.t) : list Z :=
  Partition.internalFragment <$> filter (λ p, Partition.isFree p = false) mem.

(** The sum of a list of integers. *)
Definition sumZ (l : list Z) : Z := foldr Z.add 0 l.

(** A fresh partition as [main] pushes it: the given id and size, free. *)
Definition freshPartition (k : nat) (size : Z) : Partition.t :=
  Partition.mk (Z.of_nat k + 1) size true (-1) 0 0.

(** Each element is below all the elements after it. *)
Fixpoint increasing (l : list Z) : Prop :=
  match l with
  | [] => True
  | x :: l' => Forall (λ y, x < y) l' ∧ increasing l'
  end.

(** * Proofs *)

(** ** Machine arithmetic *)

Lemma wrap_in_int z : in_int z → wrap z = z.
Proof.
  unfold in_int, wrap, INT_MIN, INT_MAX. intros Hz.
  rewrite Z.mod_small; lia.
Qed.

Lemma wrap_range z : in_int (wrap z).
Proof.
  unfold in_int, wrap, INT_MIN, INT_MAX.
  pose proof (Z.mod_pos_bound (z - -2147483648) (2 ^ 32)). lia.
Qed.

Lemma leftover_exact size s :
  in_int size → 0 < s → s ≤ size →
  int_sub size s = size - s ∧ 0 ≤ size - s < INT_MAX.
Proof.
  unfold int_sub. intros Hsize Hs Hle.
  rewrite wrap_in_int; unfold in_int, INT_MIN, INT_MAX in *; lia.
Qed.

(** ** The scan *)

Section Scan.
Variable s : Z.

Lemma candidate_snoc mem q k p :
  candidate (mem ++ [q]) s k p ↔
  candidate mem s k p ∨
  (k = length mem ∧ p = q ∧ Partition.isFree q = true ∧ s ≤ Partition.size q).
Proof.
  unfold candidate. rewrite lookup_snoc_Some. split.
  - intros [[[Hk Hp]|[-> ->]] [Hfree Hle]]; [left | right]; done.
  - intros [(Hp & Hfree & Hle)|(-> & -> & Hfree & Hle)].
    + split; [|done]. left. split; [|done]. by eapply lookup_lt_Some.
    + split; [|done]. by right.
Qed.

Lemma candidate_lt mem k p : candidate mem s k p → (k < length mem)%nat.
Proof. intros [Hp _]. by eapply lookup_lt_Some. Qed.

Lemma candidate_app mem rest k p : candidate mem s k p → candidate (mem ++ rest) s k p.
Proof.
  intros (Hp & Hfree & Hle). split; [|done].
  by apply lookup_app_l_Some.
Qed.

(** One partition that is no candidate changes nothing. *)
Lemma scanned_skip mem q b f :
  Partition.isFree q && (s <=? Partition.size q) = false →
  scanned s mem b f → scanned s (mem ++ [q]) b f.
Proof.
  intros Hq Hsc.
  assert (Hno : ¬ (Partition.isFree q = true ∧ s ≤ Partition.size q)).
  { intros [Hfree Hle]. rewrite Hfree in Hq. simpl in Hq. lia. }
  destruct Hsc as [(-> & -> & Hnone)|(k & p & -> & [Hc Hbest] & ->)].
  - left. repeat split. intros k p [Hc|(_ & _ & Hfree & Hle)]%candidate_snoc.
    + by eapply Hnone.
    + by apply Hno.
  - right. exists k, p. split; [done|]. split; [|done].
    split; [by apply candidate_app|].
    intros k' p' [Hc'|(_ & _ & Hfree & Hle)]%candidate_snoc; [by apply Hbest|].
    by destruct Hno.
Qed.

(** A candidate strictly better than the best so far replaces it. *)
Lemma scanned_better mem q b f :
  Partition.isFree q = true → s ≤ Partition.size q →
  0 ≤ Partition.size q - s < INT_MAX →
  Partition.size q - s < f →
  scanned s mem b f →
  scanned s (mem ++ [q]) (Z.of_nat (length mem)) (Partition.size q - s).
Proof.
  intros Hfree Hle Hrange Hlt Hsc. right. exists (length mem), q.
  split; [done|]. split; [|done]. split.
  { apply candidate_snoc. by right. }
  intros k' p' [Hc'|(-> & -> & _)]%candidate_snoc; [|right; lia].
  left. destruct Hsc as [(_ & _ & Hnone)|(k & p & _ & [Hc Hbest] & ->)].
  - by destruct (Hnone k' p').
  - destruct (Hbest k' p' Hc'); lia.
Qed.

(** A candidate that is not strictly better leaves the best so far. *)
Lemma scanned_worse mem q b f :
  Partition.isFree q = true → s ≤ Partition.size q →
  0 ≤ Partition.size q - s < INT_MAX →
  f ≤ Partition.size q - s →
  scanned s mem b f → scanned s (mem ++ [q]) b f.
Proof.
  intros Hfree Hle Hrange Hge Hsc.
  destruct Hsc as [(_ & -> & _)|(k & p & -> & [Hc Hbest] & ->)]; [lia|].
  right. exists k, p. split; [done|]. split; [|done].
  split; [by apply candidate_app|].
  intros k' p' [Hc'|(-> & -> & _)]%candidate_snoc; [by apply Hbest|].
  apply candidate_lt in Hc. lia.
Qed.

Hypothesis s_pos : 0 < s.

Lemma scanFrom_scanned rest : ∀ visited b f,
  sizesInInt rest →
  scanned s visited b f →
  ∃ f', scanned s (visited ++ rest)
          (scanFrom s rest (Z.of_nat (length visited)) b f) f'.
Proof.
  induction rest as [|q rest IH]; intros visited b f Hsizes Hsc; simpl.
  { exists f. by rewrite app_nil_r. }
  apply Forall_cons_iff in Hsizes as [Hq Hsizes].
  replace (Z.of_nat (length visited) + 1) with (Z.of_nat (length (visited ++ [q])))
    by (rewrite length_app; simpl; lia).
  rewrite (cons_middle q visited rest), app_assoc.
  destruct (Partition.isFree q && (s <=? Partition.size q)) eqn:Hcand.
  - apply andb_true_iff in Hcand as [Hfree Hle%Z.leb_le].
    destruct (leftover_exact _ _ Hq s_pos Hle) as [-> Hrange].
    destruct (Z.ltb_spec (Partition.size q - s) f).
    + apply IH; [done|]. by eapply scanned_better.
    + apply IH; [done|]. by eapply scanned_worse.
  - apply IH; [done|]. by apply scanned_skip.
Qed.

Lemma bestFitScan_scanned mem :
  sizesInInt mem → ∃ f, scanned s mem (bestFitScan s mem) f.
Proof.
  intros Hsizes. apply (scanFrom_scanned mem [] (-1) INT_MAX Hsizes).
  left. repeat split. intros k p [Hp _]. by rewrite lookup_nil in Hp.
Qed.
End Scan.

(** Whatever the sizes, the scan answers [-1] or the position of a free
    partition that is large enough. *)
Lemma scanFrom_picked s rest : ∀ visited b f,
  picked visited s b →
  picked (visited ++ rest) s (scanFrom s rest (Z.of_nat (length visited)) b f).
Proof.
  induction rest as [|q rest IH]; intros visited b f Hb; simpl.
  { by rewrite app_nil_r. }
  assert (Hkeep : picked (visited ++ [q]) s b).
  { destruct Hb as [->|(k & p & -> & Hc)]; [by left|].
    right. exists k, p. split; [done|]. by apply candidate_app. }
  replace (Z.of_nat (length visited) + 1) with (Z.of_nat (length (visited ++ [q])))
    by (rewrite length_app; simpl; lia).
  rewrite (cons_middle q visited rest), app_assoc.
  destruct (Partition.isFree q && (s <=? Partition.size q)) eqn:Hcand; [|by apply IH].
  apply andb_true_iff in Hcand as [Hfree Hle%Z.leb_le].
  destruct (_ <? f); apply IH; [|done].
  right. exists (length visited), q. split; [done|].
  apply candidate_snoc. by right.
Qed.

Lemma bestFitScan_picked s mem : picked mem s (bestFitScan s mem).
Proof. apply (scanFrom_picked s mem [] (-1) INT_MAX). by left. Qed.

Lemma bestCandidate_unique mem s k1 p1 k2 p2 :
  bestCandidate mem s k1 p1 → bestCandidate mem s k2 p2 → k1 = k2 ∧ p1 = p2.
Proof.
  intros [Hc1 Hb1] [Hc2 Hb2].
  assert (k1 = k2) as <-.
  { destruct (Hb1 _ _ Hc2), (Hb2 _ _ Hc1); lia. }
  split; [done|]. destruct Hc1 as [H1 _], Hc2 as [H2 _]. congruence.
Qed.

Lemma idAt_alter f mem k p :
  mem !! k = Some p → idAt (alter f k mem) k = Partition.id (f p).
Proof. intros Hp. unfold idAt. by rewrite list_lookup_alter_eq, Hp. Qed.

Lemma occupy_id job p : Partition.id (occupy job p) = Partition.id p.
Proof. done. Qed.

(** ** Best fit (C1) *)

(** C1.  For a request of size [s > 0] the scan of [allocateJob] looks at
    the free partitions of capacity at least [s] and nothing else.  When
    there is none, it answers [-1], and the job goes to the end of the
    waiting queue with the pool unchanged.  When there is one, it answers
    the position of the candidate of least leftover [capacity - s], the
    first such in the pool (which is the one of lowest id, ids being handed
    out in pool order), and that partition, and no other, takes the job. *)
Theorem allocateJob_best_fit (job : Job.t) (g : Globals) :
  0 < Job.jobSize job →
  sizesInInt (memory g) →
  ((∀ k p, ¬ candidate (memory g) (Job.jobSize job) k p) ∧
   bestFitScan (Job.jobSize job) (memory g) = -1 ∧
   allocateJob job g =
     ({| memory := memory g;
         waitingQueue := waitingQueue g ++ [job];
         deallocatedJobs := deallocatedJobs g |},
      [MsgQueued (Job.jobNumber job)]))
  ∨
  (∃ k p,
     bestCandidate (memory g) (Job.jobSize job) k p ∧
     (∀ k' p', candidate (memory g) (Job.jobSize job) k' p' →
        Partition.size p ≤ Partition.size p' ∧
        (Partition.size p' = Partition.size p →
           (k ≤ k')%nat ∧
           (idsInOrder (memory g) → Partition.id p ≤ Partition.id p'))) ∧
     bestFitScan (Job.jobSize job) (memory g) = Z.of_nat k ∧
     allocateJob job g =
       ({| memory := alter (occupy job) k (memory g);
           waitingQueue := waitingQueue g;
           deallocatedJobs := deallocatedJobs g |},
        [MsgAllocated (Job.jobNumber job) (Partition.id p)])).
Proof.
  intros Hs Hsizes.
  destruct (bestFitScan_scanned _ Hs _ Hsizes)
    as [f [(Hb & _ & Hnone)|(k & p & Hb & Hbest & _)]].
  - left. split; [done|]. split; [done|].
    unfold allocateJob. by rewrite Hb.
  - right. exists k, p. split; [done|]. split; [|split; [done|]].
    + intros k' p' Hc'. destruct Hbest as [Hc Hmin].
      destruct (Hmin _ _ Hc') as [Hlt|[Heq Hk]]; (split; [lia|]); intros Hsame; [lia|].
      split; [done|]. intros Hids.
      rewrite (Hids k p), (Hids k' p'); [lia| apply Hc' | apply Hc].
    + unfold allocateJob. rewrite Hb.
      destruct (Z.eqb_spec (Z.of_nat k) (-1)); [lia|].
      rewrite Nat2Z.id.
      by rewrite (idAt_alter _ _ _ p) by apply Hbest.
Qed.

(** The theorem at the pool {10, 4, 8} of the specification's example. *)
Lemma allocateJob_best_fit_witness :
  let g := {| memory := [Partition.mk 1 10 true (-1) 0 0;
                         Partition.mk 2 4 true (-1) 0 0;
                         Partition.mk 3 8 true (-1) 0 0];
              waitingQueue := []; deallocatedJobs := [] |} in
  let job := Job.mk 1 4 in
  bestFitScan (Job.jobSize job) (memory g) = 1 ∧
  ((∀ k p, ¬ candidate (memory g) (Job.jobSize job) k p) ∧
   bestFitScan (Job.jobSize job) (memory g) = -1 ∧
   allocateJob job g =
     ({| memory := memory g;
         waitingQueue := waitingQueue g ++ [job];
         deallocatedJobs := deallocatedJobs g |},
      [MsgQueued (Job.jobNumber job)])
   ∨
   ∃ k p,
     bestCandidate (memory g) (Job.jobSize job) k p ∧
     (∀ k' p', candidate (memory g) (Job.jobSize job) k' p' →
        Partition.size p ≤ Partition.size p' ∧
        (Partition.size p' = Partition.size p →
           (k ≤ k')%nat ∧
           (idsInOrder (memory g) → Partition.id p ≤ Partition.id p'))) ∧
     bestFitScan (Job.jobSize job) (memory g) = Z.of_nat k ∧
     allocateJob job g =
       ({| memory := alter (occupy job) k (memory g);
           waitingQueue := waitingQueue g;
           deallocatedJobs := deallocatedJobs g |},
        [MsgAllocated (Job.jobNumber job) (Partition.id p)])).
Proof.
  intros g job. split; [reflexivity|].
  apply (allocateJob_best_fit job g); [simpl; lia|].
  unfold sizesInInt, in_int, INT_MIN, INT_MAX; simpl.
  repeat constructor; simpl; lia.
Defined.

(** Best-fit choice: capacities {10, 4, 8}, a job of size 4. *)
Example best_fit_choice :
  allocateJob (Job.mk 1 4)
    {| memory := [Partition.mk 1 10 true (-1) 0 0;
                  Partition.mk 2 4 true (-1) 0 0;
                  Partition.mk 3 8 true (-1) 0 0];
       waitingQueue := []; deallocatedJobs := [] |}
  = ({| memory := [Partition.mk 1 10 true (-1) 0 0;
                   Partition.mk 2 4 false 1 4 0;
                   Partition.mk 3 8 true (-1) 0 0];
        waitingQueue := []; deallocatedJobs := [] |},
     [MsgAllocated 1 2]).
Proof. reflexivity. Qed.

(** Tie-break: capacities {6, 6}, a job of size 6. *)
Example best_fit_tie :
  allocateJob (Job.mk 1 6)
    {| memory := [Partition.mk 1 6 true (-1) 0 0; Partition.mk 2 6 true (-1) 0 0];
       waitingQueue := []; deallocatedJobs := [] |}
  = ({| memory := [Partition.mk 1 6 false 1 6 0; Partition.mk 2 6 true (-1) 0 0];
        waitingQueue := []; deallocatedJobs := [] |},
     [MsgAllocated 1 1]).
Proof. reflexivity. Qed.

(** Queueing: one partition of capacity 5, a job of size 10. *)
Example too_large_is_queued :
  allocateJob (Job.mk 1 10)
    {| memory := [Partition.mk 1 5 true (-1) 0 0];
       waitingQueue := []; deallocatedJobs := [] |}
  = ({| memory := [Partition.mk 1 5 true (-1) 0 0];
        waitingQueue := [Job.mk 1 10]; deallocatedJobs := [] |},
     [MsgQueued 1]).
Proof. reflexivity. Qed.

(** ** The retry sweep (C2) *)

Lemma sweepLoop_acc queue : ∀ mem remaining out,
  sweepLoop queue mem remaining out =
  let '(mem', remaining', out') := sweepLoop queue mem [] [] in
  (mem', remaining ++ remaining', out ++ out').
Proof.
  induction queue as [|j queue IH]; intros mem remaining out; simpl.
  { by rewrite !app_nil_r. }
  destruct (negb _).
  - rewrite IH. rewrite (IH _ [] [_]).
    destruct (sweepLoop queue _ [] []) as [[mem' rem'] out']. by rewrite <- app_assoc.
  - rewrite IH. rewrite (IH _ [_] []).
    destruct (sweepLoop queue _ [] []) as [[mem' rem'] out']. by rewrite <- app_assoc.
Qed.

Lemma idAt_alter_occupy j k mem i : idAt (alter (occupy j) k mem) i = idAt mem i.
Proof.
  unfold idAt. destruct (decide (k = i)) as [->|Hne].
  - rewrite list_lookup_alter_eq. by destruct (mem !! i).
  - by rewrite list_lookup_alter_ne.
Qed.

Lemma sweepMsgs_alter_occupy j k mem pl :
  sweepMsgs (alter (occupy j) k mem) pl = sweepMsgs mem pl.
Proof.
  unfold sweepMsgs. apply list_fmap_ext. intros _ jk _.
  by rewrite idAt_alter_occupy.
Qed.

Lemma sizesInInt_alter_occupy j k mem :
  sizesInInt mem → sizesInInt (alter (occupy j) k mem).
Proof. intros Hsizes. apply Forall_alter; [done|]. by intros p _ Hp. Qed.

(** The loop of [tryAllocateWaiting] performs such a pass. *)
Lemma sweepLoop_Sweep queue : ∀ mem,
  sizesInInt mem →
  Forall (λ j, 0 < Job.jobSize j) queue →
  ∃ placements,
    Sweep mem queue (sweepLoop queue mem [] []).1.1 (sweepLoop queue mem [] []).1.2 placements ∧
    (sweepLoop queue mem [] []).2 = sweepMsgs mem placements.
Proof.
  induction queue as [|j queue IH]; intros mem Hsizes Hq.
  { exists []. split; [constructor | done]. }
  apply Forall_cons_iff in Hq as [Hj Hq]. simpl.
  destruct (bestFitScan_scanned _ Hj _ Hsizes)
    as [f [(Hb & _ & Hnone)|(k & p & Hb & Hbest & _)]]; rewrite Hb.
  - destruct (IH mem Hsizes Hq) as (pl & Hsweep & Hout).
    exists pl. simpl. rewrite sweepLoop_acc.
    destruct (sweepLoop queue mem [] []) as [[mem' rem'] out']. simpl in *.
    split; [by constructor | done].
  - destruct (Z.eqb_spec (Z.of_nat k) (-1)); [lia|]. simpl. rewrite Nat2Z.id.
    destruct (IH (alter (occupy j) k mem)) as (pl & Hsweep & Hout);
      [by apply sizesInInt_alter_occupy | done |].
    exists ((j, k) :: pl). rewrite sweepLoop_acc.
    destruct (sweepLoop queue _ [] []) as [[mem' rem'] out']. simpl in *.
    split; [by econstructor|].
    rewrite Hout, sweepMsgs_alter_occupy, idAt_alter_occupy. done.
Qed.

(** A pass never touches a partition that is in use. *)
Lemma Sweep_used_kept mem queue mem' remaining placements :
  Sweep mem queue mem' remaining placements →
  ∀ k p, mem !! k = Some p → Partition.isFree p = false → mem' !! k = Some p.
Proof.
  induction 1 as [mem|mem j queue k0 p0 mem' rem pl [(Hp0 & Hfree0 & _) _] _ IH
                 |mem j queue mem' rem pl _ _ IH]; intros k p Hp Hused; [done| |by apply IH].
  apply IH; [|done].
  rewrite list_lookup_alter_ne; [done|]. intros ->. congruence.
Qed.

(** A partition in use when the pass starts receives no job. *)
Lemma Sweep_used_not_chosen mem queue mem' remaining placements :
  Sweep mem queue mem' remaining placements →
  ∀ k p, mem !! k = Some p → Partition.isFree p = false → k ∉ placements.*2.
Proof.
  induction 1 as [mem|mem j queue k0 p0 mem' rem pl [(Hp0 & Hfree0 & _) _] _ IH
                 |mem j queue mem' rem pl _ _ IH]; intros k p Hp Hused; simpl.
  - apply not_elem_of_nil.
  - apply not_elem_of_cons. split; [intros ->; congruence|].
    eapply IH; [|done].
    rewrite list_lookup_alter_ne; [done|]. intros ->. congruence.
  - by eapply IH.
Qed.

(** No partition is consumed twice in one pass. *)
Lemma Sweep_NoDup mem queue mem' remaining placements :
  Sweep mem queue mem' remaining placements → NoDup placements.*2.
Proof.
  induction 1 as [mem|mem j queue k0 p0 mem' rem pl [(Hp0 & _) _] Hsw IH
                 |mem j queue mem' rem pl _ _ IH]; simpl; [constructor| |done].
  constructor; [|done].
  eapply (Sweep_used_not_chosen _ _ _ _ _ Hsw k0 (occupy j p0)); [|done].
  by rewrite list_lookup_alter_eq, Hp0.
Qed.

(** Every placement went to a partition that was free when the pass
    started, and that partition holds the job when the pass ends. *)
Lemma Sweep_placement mem queue mem' remaining placements :
  Sweep mem queue mem' remaining placements →
  ∀ j k, (j, k) ∈ placements →
    ∃ p, mem !! k = Some p ∧ Partition.isFree p = true ∧
         Job.jobSize j ≤ Partition.size p ∧ mem' !! k = Some (occupy j p).
Proof.
  induction 1 as [mem|mem j0 queue k0 p0 mem' rem pl [(Hp0 & Hfree0 & Hle0) _] Hsw IH
                 |mem j0 queue mem' rem pl _ _ IH]; intros j k Hin; [|  |by apply IH].
  { by apply elem_of_nil in Hin. }
  apply elem_of_cons in Hin as [[= -> ->]|Hin].
  - exists p0. repeat split; try done.
    eapply Sweep_used_kept; [done| |done].
    by rewrite list_lookup_alter_eq, Hp0.
  - destruct (IH _ _ Hin) as (p & Hp & Hfree & Hle & Hp').
    exists p. repeat split; try done.
    destruct (decide (k0 = k)) as [->|Hne]; [|by rewrite list_lookup_alter_ne in Hp].
    rewrite list_lookup_alter_eq, Hp0 in Hp. simpl in Hp.
    injection Hp as <-. simpl in Hfree. discriminate Hfree.
Qed.

(** A free partition that no job was placed in is as it was. *)
Lemma Sweep_untouched mem queue mem' remaining placements :
  Sweep mem queue mem' remaining placements →
  ∀ k, k ∉ placements.*2 → mem' !! k = mem !! k.
Proof.
  induction 1 as [mem|mem j0 queue k0 p0 mem' rem pl _ _ IH
                 |mem j0 queue mem' rem pl _ _ IH]; intros k Hk; [done| |by apply IH].
  simpl in Hk. apply not_elem_of_cons in Hk as [Hne Hk].
  rewrite IH by done. by rewrite list_lookup_alter_ne.
Qed.

(** The queue splits into the jobs placed and the jobs that stay, each
    part in queue order. *)
Lemma Sweep_split mem queue mem' remaining placements :
  Sweep mem queue mem' remaining placements →
  remaining `sublist_of` queue ∧ placements.*1 `sublist_of` queue ∧
  queue ≡ₚ placements.*1 ++ remaining.
Proof.
  induction 1 as [mem|mem j0 queue k0 p0 mem' rem pl _ _ (IH1 & IH2 & IH3)
                 |mem j0 queue mem' rem pl _ _ (IH1 & IH2 & IH3)]; simpl.
  - done.
  - split; [by apply sublist_cons|]. split; [by apply sublist_skip|].
    by rewrite <- IH3.
  - split; [by apply sublist_skip|]. split; [by apply sublist_cons|].
    by rewrite <- Permutation_middle, <- IH3.
Qed.

Lemma tryAllocateWaiting_sweepLoop g :
  tryAllocateWaiting g =
  ({| memory := (sweepLoop (waitingQueue g) (memory g) [] []).1.1;
      waitingQueue := (sweepLoop (waitingQueue g) (memory g) [] []).1.2;
      deallocatedJobs := deallocatedJobs g |},
   (sweepLoop (waitingQueue g) (memory g) [] []).2).
Proof.
  unfold tryAllocateWaiting. destruct g as [mem [|j q] hist]; [done|].
  cbv [waitingQueue memory deallocatedJobs].
  by destruct (sweepLoop (j :: q) mem [] []) as [[mem' rem'] out'].
Qed.

(** C2.  [tryAllocateWaiting] is one pass over the waiting queue in queue
    order ([Sweep]): each job is visited once, is placed in its best fit if
    the pool as it is at that moment has a candidate, and stays queued
    otherwise without stopping the pass.  The new queue is the jobs that
    failed, in their original order; the jobs placed are the others, also
    in order; no partition takes two jobs in one pass; every placement went
    to a partition that was free and large enough and that holds the job at
    the end; every other partition, in particular every one in use before
    the pass, is unchanged. *)
Theorem tryAllocateWaiting_one_pass (g : Globals) :
  sizesInInt (memory g) →
  queueOk (waitingQueue g) →
  ∃ placements,
    let g' := (tryAllocateWaiting g).1 in
    Sweep (memory g) (waitingQueue g) (memory g') (waitingQueue g') placements ∧
    (tryAllocateWaiting g).2 = sweepMsgs (memory g) placements ∧
    deallocatedJobs g' = deallocatedJobs g ∧
    waitingQueue g' `sublist_of` waitingQueue g ∧
    placements.*1 `sublist_of` waitingQueue g ∧
    waitingQueue g ≡ₚ placements.*1 ++ waitingQueue g' ∧
    NoDup placements.*2 ∧
    (∀ j k, (j, k) ∈ placements →
       ∃ p, memory g !! k = Some p ∧ Partition.isFree p = true ∧
            Job.jobSize j ≤ Partition.size p ∧
            memory g' !! k = Some (occupy j p)) ∧
    (∀ k, k ∉ placements.*2 → memory g' !! k = memory g !! k) ∧
    (∀ k p, memory g !! k = Some p → Partition.isFree p = false →
       k ∉ placements.*2).
Proof.
  intros Hsizes Hq.
  destruct (sweepLoop_Sweep _ _ Hsizes Hq) as (pl & Hsweep & Hout).
  exists pl. rewrite tryAllocateWaiting_sweepLoop. cbv zeta. simpl.
  destruct (Sweep_split _ _ _ _ _ Hsweep) as (Hsub1 & Hsub2 & Hperm).
  repeat (split; [done|]).
  split; [by eapply Sweep_NoDup|].
  split; [by eapply Sweep_placement|].
  split; [by eapply Sweep_untouched|].
  by eapply Sweep_used_not_chosen.
Qed.

(** The theorem at a pool {5, 10} and a queue of sizes 8, 20, 4: the job of
    size 20 fails and the job behind it is placed all the same. *)
Lemma tryAllocateWaiting_one_pass_witness :
  let g := {| memory := [Partition.mk 1 5 true (-1) 0 0; Partition.mk 2 10 true (-1) 0 0];
              waitingQueue := [Job.mk 1 8; Job.mk 2 20; Job.mk 3 4];
              deallocatedJobs := [] |} in
  tryAllocateWaiting g =
    ({| memory := [Partition.mk 1 5 false 3 4 1; Partition.mk 2 10 false 1 8 2];
        waitingQueue := [Job.mk 2 20];
        deallocatedJobs := [] |},
     [MsgWaitingAllocated 1 2; MsgWaitingAllocated 3 1]) ∧
  ∃ placements,
    Sweep (memory g) (waitingQueue g)
      (memory (tryAllocateWaiting g).1) (waitingQueue (tryAllocateWaiting g).1) placements ∧
    NoDup placements.*2.
Proof.
  intros g. split; [reflexivity|].
  destruct (tryAllocateWaiting_one_pass g) as (pl & Hsweep & _ & _ & _ & _ & _ & Hnodup & _).
  - unfold sizesInInt, in_int, INT_MIN, INT_MAX. simpl. repeat constructor; simpl; lia.
  - simpl. repeat constructor; simpl; lia.
  - exists pl. split; [exact Hsweep | exact Hnodup].
Defined.

(** Reclamation cascade: partitions {5 held by job 1, 10 held by job 2},
    job 3 of size 8 waiting.  Releasing job 1 leaves job 3 waiting;
    releasing job 2 places it in the partition of capacity 10. *)
Example cascade_too_small :
  deallocateJob 1
    {| memory := [Partition.mk 1 5 false 1 5 0; Partition.mk 2 10 false 2 10 0];
       waitingQueue := [Job.mk 3 8]; deallocatedJobs := [] |}
  = ({| memory := [Partition.mk 1 5 true (-1) 0 0; Partition.mk 2 10 false 2 10 0];
        waitingQueue := [Job.mk 3 8]; deallocatedJobs := [Job.mk 1 5] |},
     [MsgDeallocated 1 1]).
Proof. reflexivity. Qed.

Example cascade_fits :
  deallocateJob 2
    {| memory := [Partition.mk 1 5 false 1 5 0; Partition.mk 2 10 false 2 10 0];
       waitingQueue := [Job.mk 3 8]; deallocatedJobs := [] |}
  = ({| memory := [Partition.mk 1 5 false 1 5 0; Partition.mk 2 10 false 3 8 2];
        waitingQueue := []; deallocatedJobs := [Job.mk 2 10] |},
     [MsgDeallocated 2 2; MsgWaitingAllocated 3 2]).
Proof. reflexivity. Qed.

(** ** Release (C3, C5) *)

Lemma holds_true n p :
  holds n p = true ↔ Partition.isFree p = false ∧ Partition.jobNumber p = n.
Proof.
  unfold holds. rewrite andb_true_iff, negb_true_iff, Z.eqb_eq. done.
Qed.

Lemma holds_false n p :
  holds n p = false ↔ ¬ (Partition.isFree p = false ∧ Partition.jobNumber p = n).
Proof. rewrite <- holds_true. by destruct (holds n p). Qed.

(** The loop of [deallocateJob] when no partition still to visit holds the
    job. *)
Lemma deallocateFrom_none n rest : ∀ visited g,
  Forall (λ q, holds n q = false) rest →
  deallocateFrom n visited rest g = (g, [MsgNotFound]).
Proof.
  induction rest as [|q rest IH]; intros visited g Hrest; [done|].
  apply Forall_cons_iff in Hrest as [Hq Hrest]. simpl. rewrite Hq. by apply IH.
Qed.

(** The loop of [deallocateJob] when [p] is the first partition still to
    visit that holds the job. *)
Lemma deallocateFrom_first n before p after : ∀ visited g,
  Forall (λ q, holds n q = false) before →
  holds n p = true →
  deallocateFrom n visited (before ++ p :: after) g =
  let g1 := {| memory := (visited ++ before) ++ vacate p :: after;
               waitingQueue := waitingQueue g;
               deallocatedJobs :=
                 deallocatedJobs g ++ [Job.mk (Partition.jobNumber p) (Partition.jobSize p)] |} in
  ((tryAllocateWaiting g1).1,
   MsgDeallocated n (Partition.id p) :: (tryAllocateWaiting g1).2).
Proof.
  induction before as [|q before IH]; intros visited g Hbefore Hp; simpl.
  - rewrite Hp, app_nil_r. by destruct (tryAllocateWaiting _).
  - apply Forall_cons_iff in Hbefore as [Hq Hbefore]. rewrite Hq.
    rewrite IH by done. simpl. by rewrite <- (app_assoc visited [q] before).
Qed.

(** Splitting the pool at a position. *)
Lemma split_at {A} (l : list A) i x :
  l !! i = Some x → l = take i l ++ x :: drop (S i) l.
Proof. intros Hi. by rewrite <- (take_drop_middle l i x) at 1. Qed.

Lemma sweepLoop_msgs queue : ∀ mem remaining out m,
  m ∈ (sweepLoop queue mem remaining out).2 →
  m ∈ out ∨ ∃ j pid, m = MsgWaitingAllocated j pid.
Proof.
  induction queue as [|j queue IH]; intros mem remaining out m; simpl; [by left|].
  destruct (negb _); intros Hm; apply IH in Hm as [Hm|Hm]; try by auto.
  apply elem_of_app in Hm as [Hm|Hm%list_elem_of_singleton]; [by left|].
  right. eauto.
Qed.

Lemma tryAllocateWaiting_msgs g m :
  m ∈ (tryAllocateWaiting g).2 → ∃ j pid, m = MsgWaitingAllocated j pid.
Proof.
  rewrite tryAllocateWaiting_sweepLoop. simpl.
  intros [Hm|Hm]%sweepLoop_msgs; [|done]. by apply elem_of_nil in Hm.
Qed.

(** C3.  When partition [i] is in use by job [n] (and is the first such,
    which it is whenever job numbers are unique), [deallocateJob n] frees
    exactly that partition -- marked free, job number [-1], job size and
    fragment [0], id and capacity kept, every other partition as it was --,
    appends the released job to the history, and then runs
    [tryAllocateWaiting] once, on the state so obtained, whose waiting
    queue is the whole queue; the result of that sweep is the result of the
    release. *)
Theorem deallocateJob_releases (n : Z) (g : Globals) (i : nat) (p : Partition.t) :
  memory g !! i = Some p →
  Partition.isFree p = false →
  Partition.jobNumber p = n →
  (∀ k q, (k < i)%nat → memory g !! k = Some q →
     ¬ (Partition.isFree q = false ∧ Partition.jobNumber q = n)) →
  let freed := Partition.mk (Partition.id p) (Partition.size p) true (-1) 0 0 in
  let g1 := {| memory := <[i := freed]> (memory g);
               waitingQueue := waitingQueue g;
               deallocatedJobs := deallocatedJobs g ++ [Job.mk n (Partition.jobSize p)] |} in
  deallocateJob n g =
    ((tryAllocateWaiting g1).1,
     MsgDeallocated n (Partition.id p) :: (tryAllocateWaiting g1).2) ∧
  memory g1 !! i = Some freed ∧
  (∀ k, k ≠ i → memory g1 !! k = memory g !! k).
Proof.
  intros Hp Hused Hn Hfirst freed g1.
  assert (Hmem : memory g1 = take i (memory g) ++ vacate p :: drop (S i) (memory g)).
  { subst g1. simpl. rewrite (split_at _ _ _ Hp) at 1.
    assert (Hlen : length (take i (memory g)) = i).
    { apply length_take_le. apply lookup_lt_Some in Hp. lia. }
    rewrite <- Hlen at 1. rewrite insert_app_r_alt, Nat.sub_diag by lia. done. }
  split; [|split].
  - unfold deallocateJob. rewrite (split_at _ _ _ Hp) at 1.
    rewrite deallocateFrom_first.
    + simpl. rewrite Hn. fold freed. unfold vacate. fold freed.
      unfold vacate in Hmem. fold freed in Hmem. subst g1. simpl in Hmem.
      by rewrite Hmem.
    + apply Forall_forall. intros q Hq%list_elem_of_In.
      apply list_elem_of_lookup in Hq as [k Hk].
      apply holds_false. apply (Hfirst k q).
      * apply lookup_lt_Some in Hk. rewrite length_take in Hk. lia.
      * rewrite lookup_take_Some in Hk. apply Hk.
    + by apply holds_true.
  - subst g1. simpl. apply list_lookup_insert_eq. by eapply lookup_lt_Some.
  - intros k Hk. subst g1. simpl. by apply list_lookup_insert_ne.
Qed.

(** The theorem at the second cascade example of the specification. *)
Lemma deallocateJob_releases_witness :
  let g := {| memory := [Partition.mk 1 5 false 1 5 0; Partition.mk 2 10 false 2 10 0];
              waitingQueue := [Job.mk 3 8]; deallocatedJobs := [] |} in
  let g1 := {| memory := [Partition.mk 1 5 false 1 5 0; Partition.mk 2 10 true (-1) 0 0];
               waitingQueue := [Job.mk 3 8]; deallocatedJobs := [Job.mk 2 10] |} in
  deallocateJob 2 g =
    ((tryAllocateWaiting g1).1, MsgDeallocated 2 2 :: (tryAllocateWaiting g1).2).
Proof.
  intros g g1.
  refine (proj1 (deallocateJob_releases 2 g 1%nat (Partition.mk 2 10 false 2 10 0) _ _ _ _)).
  - reflexivity.
  - reflexivity.
  - reflexivity.
  - intros k q Hk Hq [_ Hn]. destruct k as [|k]; [|lia].
    simpl in Hq. injection Hq as <-. simpl in Hn. lia.
Defined.

(** Either no partition holds the job, or the pool splits at the first
    one that does. *)
Lemma first_holder n mem :
  Forall (λ q, holds n q = false) mem ∨
  ∃ before p after,
    mem = before ++ p :: after ∧
    Forall (λ q, holds n q = false) before ∧ holds n p = true.
Proof.
  induction mem as [|q mem [IH|(before & p & after & -> & Hbefore & Hp)]].
  - left. constructor.
  - destruct (holds n q) eqn:Hq.
    + right. exists [], q, mem. by repeat split.
    + left. by constructor.
  - destruct (holds n q) eqn:Hq.
    + right. exists [], q, (before ++ p :: after). by repeat split.
    + right. exists (q :: before), p, after. repeat split; [|done]. by constructor.
Qed.

(** C5.  [deallocateJob n] prints "Job not found." exactly when no
    partition is in use by job [n]; and then it returns the pool, the
    waiting queue and the history as they were and prints nothing else, so
    no sweep has run, whatever the waiting queue holds. *)
Theorem deallocateJob_not_found (n : Z) (g : Globals) :
  (MsgNotFound ∈ (deallocateJob n g).2 ↔
   ∀ p, p ∈ memory g → ¬ (Partition.isFree p = false ∧ Partition.jobNumber p = n)) ∧
  ((∀ p, p ∈ memory g → ¬ (Partition.isFree p = false ∧ Partition.jobNumber p = n)) →
   deallocateJob n g = (g, [MsgNotFound])).
Proof.
  assert (Hnone : (∀ p, p ∈ memory g →
                     ¬ (Partition.isFree p = false ∧ Partition.jobNumber p = n)) →
                  deallocateJob n g = (g, [MsgNotFound])).
  { intros Hno. apply deallocateFrom_none, Forall_forall.
    intros q Hq%list_elem_of_In. by apply holds_false, Hno. }
  split; [|done]. split.
  - intros Hmsg p Hp.
    destruct (first_holder n (memory g)) as [Hall|(before & p0 & after & Hmem & Hbefore & Hp0)].
    + apply holds_false. rewrite Forall_forall in Hall. by apply Hall, list_elem_of_In.
    + exfalso. unfold deallocateJob in Hmsg. rewrite Hmem in Hmsg.
      rewrite deallocateFrom_first in Hmsg by done. simpl in Hmsg.
      apply elem_of_cons in Hmsg as [Hmsg|Hmsg]; [discriminate Hmsg|].
      apply tryAllocateWaiting_msgs in Hmsg as (j & pid & Hmsg). discriminate Hmsg.
  - intros Hno. rewrite Hnone by done. simpl. apply list_elem_of_singleton. done.
Qed.

(** The theorem where job [7] is waiting and no partition holds it. *)
Lemma deallocateJob_not_found_witness :
  let g := {| memory := [Partition.mk 1 5 false 1 5 0; Partition.mk 2 10 true (-1) 0 0];
              waitingQueue := [Job.mk 7 20]; deallocatedJobs := [] |} in
  deallocateJob 7 g = (g, [MsgNotFound]).
Proof.
  intros g. apply (proj2 (deallocateJob_not_found 7 g)).
  intros p Hp [Hused Hnum].
  apply elem_of_cons in Hp as [->|Hp]; [simpl in Hnum; lia|].
  apply list_elem_of_singleton in Hp as ->. simpl in Hused. discriminate Hused.
Defined.

(** ** Fragments (C7) and the precondition of placement (C10) *)

Lemma partOk_fragOk p : partOk p → fragOk p.
Proof.
  unfold partOk, fragOk. intros [Hsize Hp].
  destruct (Partition.isFree p); [|split; [lia|done]].
  destruct Hp as (_ & _ & ->). done.
Qed.

Lemma partOk_in_int p : partOk p → in_int (Partition.size p).
Proof. unfold partOk, in_int, INT_MIN, INT_MAX. lia. Qed.

Lemma poolOk_sizesInInt mem : Forall partOk mem → sizesInInt mem.
Proof. apply Forall_impl. exact partOk_in_int. Qed.

Lemma occupy_fragOk job p :
  in_int (Partition.size p) → 0 < Job.jobSize job →
  Job.jobSize job ≤ Partition.size p → fragOk (occupy job p).
Proof.
  intros Hsize Hs Hle. destruct (leftover_exact _ _ Hsize Hs Hle) as [Heq Hrange].
  unfold fragOk. simpl. rewrite Heq. split; [lia|done].
Qed.

Lemma occupy_partOk job p :
  partOk p → 0 < Job.jobSize job →
  Job.jobSize job ≤ Partition.size p → partOk (occupy job p).
Proof.
  intros Hp Hs Hle.
  destruct (leftover_exact _ _ (partOk_in_int _ Hp) Hs Hle) as [Heq _].
  destruct Hp as [Hsize _]. unfold partOk. simpl. rewrite Heq. lia.
Qed.

Lemma vacate_partOk p : partOk p → partOk (vacate p).
Proof. intros [Hsize _]. unfold partOk. simpl. done. Qed.

Lemma vacate_fragOk p : fragOk (vacate p).
Proof. unfold fragOk. simpl. done. Qed.

(** The partition the scan answers, when it answers one. *)
Lemma bestFitScan_found s mem :
  bestFitScan s mem ≠ -1 →
  ∃ k p, bestFitScan s mem = Z.of_nat k ∧ candidate mem s k p.
Proof. intros Hb. by destruct (bestFitScan_picked s mem). Qed.

Section Preservation.
(** [P] is a property of partitions that placing a job of positive size
    in a free partition that is large enough establishes, and that
    resetting a partition establishes. *)
Variable P : Partition.t → Prop.
Hypothesis P_occupy : ∀ job p,
  P p → 0 < Job.jobSize job → Partition.isFree p = true →
  Job.jobSize job ≤ Partition.size p → P (occupy job p).
Hypothesis P_vacate : ∀ p, P p → P (vacate p).

Lemma place_preserves job mem :
  Forall P mem → 0 < Job.jobSize job →
  bestFitScan (Job.jobSize job) mem ≠ -1 →
  Forall P (alter (occupy job) (Z.to_nat (bestFitScan (Job.jobSize job) mem)) mem).
Proof.
  intros Hmem Hs (k & p & -> & Hp & Hfree & Hle)%bestFitScan_found.
  rewrite Nat2Z.id. apply Forall_alter; [done|].
  intros q Hq Hpq. rewrite Hp in Hq. injection Hq as <-. by apply P_occupy.
Qed.

Lemma allocateJob_preserves job g :
  Forall P (memory g) → 0 < Job.jobSize job →
  Forall P (memory (allocateJob job g).1).
Proof.
  intros Hmem Hs. unfold allocateJob.
  destruct (Z.eqb_spec (bestFitScan (Job.jobSize job) (memory g)) (-1)); [done|].
  simpl. by apply place_preserves.
Qed.

Lemma sweepLoop_preserves queue : ∀ mem remaining out,
  Forall P mem → queueOk queue →
  Forall P (sweepLoop queue mem remaining out).1.1.
Proof.
  induction queue as [|j queue IH]; intros mem remaining out Hmem Hq; [done|].
  apply Forall_cons_iff in Hq as [Hj Hq]. simpl.
  destruct (Z.eqb_spec (bestFitScan (Job.jobSize j) mem) (-1)); simpl.
  - by apply IH.
  - apply IH; [|done]. by apply place_preserves.
Qed.

Lemma tryAllocateWaiting_preserves g :
  Forall P (memory g) → queueOk (waitingQueue g) →
  Forall P (memory (tryAllocateWaiting g).1).
Proof.
  intros Hmem Hq. rewrite tryAllocateWaiting_sweepLoop. simpl.
  by apply sweepLoop_preserves.
Qed.

Lemma deallocateJob_preserves n g :
  Forall P (memory g) → queueOk (waitingQueue g) →
  Forall P (memory (deallocateJob n g).1).
Proof.
  intros Hmem Hq. unfold deallocateJob.
  destruct (first_holder n (memory g)) as [Hall|(before & p & after & Heq & Hbefore & Hp)].
  - by rewrite deallocateFrom_none.
  - rewrite Heq, deallocateFrom_first by done. simpl.
    apply tryAllocateWaiting_preserves; [|done]. simpl.
    rewrite Heq in Hmem. apply Forall_app in Hmem as [Hb Hpa].
    apply Forall_cons_iff in Hpa as [Hp' Ha].
    apply Forall_app. split; [done|]. apply Forall_cons_iff. split; [|done].
    by apply P_vacate.
Qed.
End Preservation.

(** The queue after each operation still holds jobs of positive size. *)
Lemma allocateJob_queueOk job g :
  queueOk (waitingQueue g) → 0 < Job.jobSize job →
  queueOk (waitingQueue (allocateJob job g).1).
Proof.
  intros Hq Hs. unfold allocateJob. destruct (_ =? _); [|done].
  simpl. apply Forall_app. split; [done|]. by apply Forall_singleton.
Qed.

Lemma sweepLoop_queueOk queue : ∀ mem remaining out,
  queueOk queue → queueOk remaining →
  queueOk (sweepLoop queue mem remaining out).1.2.
Proof.
  induction queue as [|j queue IH]; intros mem remaining out Hq Hrem; [done|].
  apply Forall_cons_iff in Hq as [Hj Hq]. simpl.
  destruct (negb _); apply IH; try done.
  apply Forall_app. split; [done|]. by apply Forall_singleton.
Qed.

Lemma tryAllocateWaiting_queueOk g :
  queueOk (waitingQueue g) → queueOk (waitingQueue (tryAllocateWaiting g).1).
Proof.
  intros Hq. rewrite tryAllocateWaiting_sweepLoop. simpl.
  apply sweepLoop_queueOk; [done|constructor].
Qed.

Lemma deallocateJob_queueOk n g :
  queueOk (waitingQueue g) → queueOk (waitingQueue (deallocateJob n g).1).
Proof.
  intros Hq. unfold deallocateJob.
  destruct (first_holder n (memory g)) as [Hall|(before & p & after & Heq & Hbefore & Hp)].
  - by rewrite deallocateFrom_none.
  - rewrite Heq, deallocateFrom_first by done. simpl.
    by apply tryAllocateWaiting_queueOk.
Qed.

(** *** Reachable states *)

Lemma run_snoc inputs tok : run (inputs ++ [tok]) = feed (run inputs) tok.
Proof. unfold run. by rewrite fold_left_app. Qed.

Lemma initial_machineOk : machineOk initial.
Proof. repeat split; constructor. Qed.

Lemma feed_machineOk m tok : machineOk m → in_int tok → machineOk (feed m tok).
Proof.
  intros (Hmem & Hq & Hsetup) Htok. unfold setupOk in Hsetup.
  unfold feed, machineOk, setupOk. destruct (phase m) as [|i n| |j| |] eqn:Hphase.
  - simpl. destruct (Z.ltb_spec 0 tok); simpl; repeat split; try done.
    + unfold in_int in Htok. lia.
    + by rewrite Hsetup.
  - destruct Hsetup as (Hi & Hn & Hlen).
    assert (Hnext : int_add i 1 = i + 1).
    { apply wrap_in_int. unfold in_int, INT_MIN, INT_MAX in *. lia. }
    destruct (Z.leb_spec tok 0); simpl; rewrite ?Hphase; [done|].
    rewrite Hnext. split; [|split; [done|]].
    + apply Forall_app. split; [done|]. apply Forall_singleton.
      unfold partOk, in_int in *. simpl. lia.
    + destruct (Z.ltb_spec (i + 1) n); simpl; [|done].
      rewrite length_app. simpl. lia.
  - destruct (tok =? 1); [done|]. destruct (tok =? 2); [done|].
    destruct (tok =? 3); [done|]. destruct (tok =? 4); [done|].
    by rewrite Hphase.
  - destruct (Z.leb_spec tok 0); simpl; rewrite ?Hphase; [done|].
    pose proof (allocateJob_preserves partOk
                  (λ job p Hp Hs _ Hle, occupy_partOk job p Hp Hs Hle)
                  (Job.mk j tok) (globals m) Hmem) as Hmem'.
    pose proof (allocateJob_queueOk (Job.mk j tok) (globals m) Hq) as Hq'.
    destruct (allocateJob _ _) as [g' out]. simpl in *. auto.
  - pose proof (deallocateJob_preserves partOk
                  (λ job p Hp Hs _ Hle, occupy_partOk job p Hp Hs Hle)
                  vacate_partOk tok (globals m) Hmem Hq) as Hmem'.
    pose proof (deallocateJob_queueOk tok (globals m) Hq) as Hq'.
    destruct (deallocateJob _ _) as [g' out]. simpl in *. auto.
  - by rewrite Hphase.
Qed.

(** Every state [main] reaches on [int] inputs satisfies the invariant. *)
Lemma run_machineOk inputs : Forall in_int inputs → machineOk (run inputs).
Proof.
  induction inputs as [|tok inputs IH] using rev_ind; intros Hin.
  { exact initial_machineOk. }
  apply Forall_app in Hin as [Hin Htok%Forall_inv].
  rewrite run_snoc. apply feed_machineOk; [by apply IH | done].
Qed.

(** So what the theorems about single operations assume of the pool and of
    the queue holds wherever [main] calls them; and [main] calls
    [allocateJob] only with a job size it has checked to be positive. *)
Lemma run_wellformed inputs :
  Forall in_int inputs →
  sizesInInt (memory (globals (run inputs))) ∧
  queueOk (waitingQueue (globals (run inputs))).
Proof.
  intros Hin. destruct (run_machineOk inputs Hin) as (Hmem & Hq & _).
  split; [by apply poolOk_sizesInInt | done].
Qed.

(** C7.  In every state [main] can reach, every partition has a fragment
    that is not negative, and a fragment of [0] when it is free.  And each
    operation keeps it so from any pool whose capacities are [int]s when
    the jobs involved have the positive sizes [main] insists on: placing a
    job ([allocateJob]), the retry sweep ([tryAllocateWaiting]) and a
    release ([deallocateJob]). *)
Theorem fragments_never_negative :
  (∀ inputs, Forall in_int inputs →
     Forall fragOk (memory (globals (run inputs)))) ∧
  (∀ job g, sizesInInt (memory g) → 0 < Job.jobSize job →
     Forall fragOk (memory g) → Forall fragOk (memory (allocateJob job g).1)) ∧
  (∀ g, sizesInInt (memory g) → queueOk (waitingQueue g) →
     Forall fragOk (memory g) → Forall fragOk (memory (tryAllocateWaiting g).1)) ∧
  (∀ n g, sizesInInt (memory g) → queueOk (waitingQueue g) →
     Forall fragOk (memory g) → Forall fragOk (memory (deallocateJob n g).1)).
Proof.
  set (P := λ p, in_int (Partition.size p) ∧ fragOk p).
  assert (Hocc : ∀ job p, P p → 0 < Job.jobSize job → Partition.isFree p = true →
                   Job.jobSize job ≤ Partition.size p → P (occupy job p)).
  { intros job p [Hsize _] Hs _ Hle. split; [done|]. by apply occupy_fragOk. }
  assert (Hvac : ∀ p, P p → P (vacate p)).
  { intros p [Hsize _]. split; [done|]. apply vacate_fragOk. }
  assert (Hjoin : ∀ mem, sizesInInt mem → Forall fragOk mem → Forall P mem).
  { intros mem Hsizes Hfrag. by apply Forall_and. }
  assert (Hfrag : ∀ mem, Forall P mem → Forall fragOk mem).
  { intros mem Hmem. eapply Forall_impl; [|exact Hmem]. by intros p [_ Hp]. }
  split; [|split; [|split]].
  - intros inputs Hin. destruct (run_machineOk inputs Hin) as (Hmem & _).
    eapply Forall_impl; [|exact Hmem]. exact partOk_fragOk.
  - intros job g Hsizes Hs Hg.
    apply Hfrag, (allocateJob_preserves P Hocc); [|done]. by apply Hjoin.
  - intros g Hsizes Hq Hg.
    apply Hfrag, (tryAllocateWaiting_preserves P Hocc); [|done]. by apply Hjoin.
  - intros n g Hsizes Hq Hg.
    apply Hfrag, (deallocateJob_preserves P Hocc Hvac); [|done]. by apply Hjoin.
Qed.

(** The theorem on a session: two partitions, three jobs, one release. *)
Lemma fragments_never_negative_witness :
  Forall fragOk (memory (globals (run [2; 6; 9; 1; 4; 1; 6; 1; 6; 2; 1]))).
Proof.
  apply (proj1 fragments_never_negative).
  repeat (apply List.Forall_cons; [unfold in_int, INT_MIN, INT_MAX; lia|]).
  apply List.Forall_nil.
Defined.

Lemma placeChecked_ok job mem :
  sizesInInt mem → 0 < Job.jobSize job →
  bestFitScan (Job.jobSize job) mem ≠ -1 →
  placeChecked job (bestFitScan (Job.jobSize job) mem) mem =
  Some (alter (occupy job) (Z.to_nat (bestFitScan (Job.jobSize job) mem)) mem).
Proof.
  intros Hsizes Hs (k & p & -> & Hp & Hfree & Hle)%bestFitScan_found.
  unfold placeChecked. destruct (Z.ltb_spec (Z.of_nat k) 0); [lia|].
  rewrite Nat2Z.id, Hp, Hfree.
  assert (Hsize : in_int (Partition.size p)).
  { unfold sizesInInt in Hsizes. rewrite Forall_lookup in Hsizes. by eapply Hsizes. }
  destruct (leftover_exact _ _ Hsize Hs Hle) as [-> Hrange].
  destruct (Z.leb_spec (Job.jobSize job) (Partition.size p)); [|lia].
  destruct (Z.leb_spec 0 (Partition.size p - Job.jobSize job)); [done|lia].
Qed.

Lemma allocateJobChecked_ok job g :
  sizesInInt (memory g) → 0 < Job.jobSize job →
  allocateJobChecked job g = Some (allocateJob job g).
Proof.
  intros Hsizes Hs. unfold allocateJobChecked, allocateJob.
  destruct (Z.eqb_spec (bestFitScan (Job.jobSize job) (memory g)) (-1)); [done|].
  by rewrite placeChecked_ok.
Qed.

Lemma sweepLoopChecked_ok queue : ∀ mem remaining out,
  sizesInInt mem → queueOk queue →
  sweepLoopChecked queue mem remaining out = Some (sweepLoop queue mem remaining out).
Proof.
  induction queue as [|j queue IH]; intros mem remaining out Hsizes Hq; [done|].
  apply Forall_cons_iff in Hq as [Hj Hq]. simpl.
  destruct (Z.eqb_spec (bestFitScan (Job.jobSize j) mem) (-1)); simpl.
  - by apply IH.
  - rewrite placeChecked_ok by done. apply IH; [|done].
    by apply sizesInInt_alter_occupy.
Qed.

Lemma tryAllocateWaitingChecked_ok g :
  sizesInInt (memory g) → queueOk (waitingQueue g) →
  tryAllocateWaitingChecked g = Some (tryAllocateWaiting g).
Proof.
  intros Hsizes Hq. unfold tryAllocateWaitingChecked, tryAllocateWaiting.
  destruct (waitingQueue g) as [|j q] eqn:Hqueue; [done|].
  rewrite sweepLoopChecked_ok by done.
  by destruct (sweepLoop (j :: q) (memory g) [] []) as [[mem' rem'] out'].
Qed.

Lemma deallocateFromChecked_ok n rest : ∀ visited g,
  sizesInInt (visited ++ rest) → queueOk (waitingQueue g) →
  deallocateFromChecked n visited rest g = Some (deallocateFrom n visited rest g).
Proof.
  induction rest as [|q rest IH]; intros visited g Hsizes Hq; [done|]. simpl.
  destruct (holds n q).
  - rewrite tryAllocateWaitingChecked_ok; [by destruct (tryAllocateWaiting _)| |done].
    simpl. unfold sizesInInt in *. rewrite Forall_app, Forall_cons_iff in *. done.
  - apply IH; [|done]. by rewrite <- app_assoc.
Qed.

Lemma feedChecked_ok m tok : machineOk m → feedChecked m tok = Some (feed m tok).
Proof.
  intros (Hmem & Hq & _). apply poolOk_sizesInInt in Hmem.
  unfold feedChecked, feed. destruct (phase m) as [|i n| |j| |] eqn:Hphase; try done.
  - destruct (Z.leb_spec tok 0); [done|].
    rewrite allocateJobChecked_ok by (simpl; done || lia).
    by destruct (allocateJob _ _).
  - rewrite deallocateFromChecked_ok by done. unfold deallocateJob.
    by destruct (deallocateFrom _ _ _ _).
Qed.

Lemma runFromChecked_ok inputs : ∀ m,
  machineOk m → Forall in_int inputs →
  runFromChecked m inputs = Some (fold_left feed inputs m).
Proof.
  induction inputs as [|tok inputs IH]; intros m Hm Hin; [done|].
  apply Forall_cons_iff in Hin as [Htok Hin]. simpl.
  rewrite feedChecked_ok by done. apply IH; [|done]. by apply feed_machineOk.
Qed.

(** C10.  The scan answers, when it answers a partition at all, a
    partition of the pool that is free and whose capacity is at least the
    job's size.  So with [place] checking its precondition (and that the
    fragment it computes is not negative), [allocateJob] and
    [tryAllocateWaiting] never take the error branch and do what they do
    unchecked, from any pool whose capacities are [int]s and for jobs of
    positive size; and neither does the whole program, on any input. *)
Theorem placement_precondition_holds :
  (∀ s mem, bestFitScan s mem ≠ -1 →
     ∃ k p, bestFitScan s mem = Z.of_nat k ∧ mem !! k = Some p ∧
            Partition.isFree p = true ∧ s ≤ Partition.size p) ∧
  (∀ job g, sizesInInt (memory g) → 0 < Job.jobSize job →
     allocateJobChecked job g = Some (allocateJob job g)) ∧
  (∀ g, sizesInInt (memory g) → queueOk (waitingQueue g) →
     tryAllocateWaitingChecked g = Some (tryAllocateWaiting g)) ∧
  (∀ inputs, Forall in_int inputs →
     runFromChecked initial inputs = Some (run inputs)).
Proof.
  split; [|split; [|split]].
  - intros s mem Hb. by apply bestFitScan_found.
  - exact allocateJobChecked_ok.
  - exact tryAllocateWaitingChecked_ok.
  - intros inputs Hin. by apply runFromChecked_ok; [apply initial_machineOk|].
Qed.

(** The theorem on a session: two partitions, three jobs, one release. *)
Lemma placement_precondition_holds_witness :
  runFromChecked initial [2; 6; 9; 1; 4; 1; 6; 1; 6; 2; 1]
  = Some (run [2; 6; 9; 1; 4; 1; 6; 1; 6; 2; 1]).
Proof.
  apply (proj2 (proj2 (proj2 placement_precondition_holds))).
  repeat (apply List.Forall_cons; [unfold in_int, INT_MIN, INT_MAX; lia|]).
  apply List.Forall_nil.
Defined.

(** [placeChecked] does refuse what the precondition excludes. *)
Example placeChecked_refuses_used :
  placeChecked (Job.mk 2 3) 0 [Partition.mk 1 5 false 1 5 0] = None.
Proof. reflexivity. Qed.

Example placeChecked_refuses_small :
  placeChecked (Job.mk 2 9) 0 [Partition.mk 1 5 true (-1) 0 0] = None.
Proof. reflexivity. Qed.

(** ** Job numbers (C9, C6) *)

Lemma wrap_add_l a b : wrap (wrap a + b) = wrap (a + b).
Proof.
  unfold wrap.
  replace ((a - INT_MIN) `mod` 2 ^ 32 + INT_MIN + b - INT_MIN)
    with ((a - INT_MIN) `mod` 2 ^ 32 + b) by lia.
  replace (a + b - INT_MIN) with ((a - INT_MIN) + b) by lia.
  by rewrite Zplus_mod_idemp_l.
Qed.

Lemma submitted_app out1 out2 : submitted (out1 ++ out2) = submitted out1 ++ submitted out2.
Proof. apply omap_app. Qed.

Lemma submitted_allocateJob job g : submitted (allocateJob job g).2 = [Job.jobNumber job].
Proof. unfold allocateJob. by destruct (_ =? _). Qed.

Lemma submitted_none out :
  (∀ msg, msg ∈ out → submittedOf msg = None) → submitted out = [].
Proof.
  induction out as [|msg out IH]; intros Hout; [done|].
  unfold submitted. simpl. rewrite (Hout msg) by apply list_elem_of_here.
  apply IH. intros msg' Hmsg'. apply Hout. by apply list_elem_of_further.
Qed.

Lemma submitted_deallocateJob n g : submitted (deallocateJob n g).2 = [].
Proof.
  unfold deallocateJob.
  destruct (first_holder n (memory g)) as [Hall|(before & p & after & Heq & Hbefore & Hp)].
  - by rewrite deallocateFrom_none.
  - rewrite Heq, deallocateFrom_first by done. simpl.
    apply submitted_none. intros msg Hmsg.
    by apply tryAllocateWaiting_msgs in Hmsg as (j & pid & ->).
Qed.

(** One input either assigns no job number, or -- read as choice [1] at
    the menu -- assigns the current value of [jobCounter] and increments
    the counter. *)
Lemma feed_issued m tok :
  (issued (feed m tok) = issued m ∧ jobCounter (feed m tok) = jobCounter m) ∨
  (issued (feed m tok) = issued m ++ [jobCounter m] ∧
   jobCounter (feed m tok) = int_add (jobCounter m) 1).
Proof.
  unfold issued, feed. destruct (phase m) as [|i n| |j| |] eqn:Hphase.
  - left. simpl. by destruct (0 <? tok).
  - left. destruct (tok <=? 0); simpl.
    + rewrite submitted_app. simpl. by rewrite !app_nil_r.
    + by destruct (_ <? n).
  - destruct (tok =? 1); [right; simpl; by rewrite app_nil_r|left].
    destruct (tok =? 2); [done|].
    destruct (tok =? 3); [simpl; rewrite submitted_app; simpl; by rewrite !app_nil_r|].
    destruct (tok =? 4); [done|]. by rewrite Hphase.
  - left. destruct (tok <=? 0); simpl.
    + rewrite submitted_app. simpl. by rewrite !app_nil_r.
    + pose proof (submitted_allocateJob (Job.mk j tok) (globals m)) as Hsub.
      destruct (allocateJob _ _) as [g' out]. simpl in *.
      by rewrite submitted_app, Hsub, !app_nil_r.
  - left. pose proof (submitted_deallocateJob tok (globals m)) as Hsub.
    destruct (deallocateJob _ _) as [g' out]. simpl in *.
    by rewrite submitted_app, Hsub, !app_nil_r.
  - left. by rewrite Hphase.
Qed.

Lemma numbering_S K : numbering (S K) = numbering K ++ [wrap (Z.of_nat K + 1)].
Proof.
  unfold numbering. rewrite seq_S, fmap_app. simpl.
  do 3 f_equal. lia.
Qed.

Lemma numbering_exact K :
  Z.of_nat K ≤ INT_MAX → numbering K = Z.of_nat <$> seq 1 K.
Proof.
  intros HK. unfold numbering. apply list_fmap_ext. intros i k Hk.
  apply lookup_seq in Hk as [-> Hi]. apply wrap_in_int.
  unfold in_int, INT_MIN, INT_MAX in *. lia.
Qed.

(** The job numbers assigned are the successive values of the counter. *)
Lemma run_numbering inputs :
  issued (run inputs) = numbering (length (issued (run inputs))) ∧
  jobCounter (run inputs) = wrap (Z.of_nat (length (issued (run inputs))) + 1).
Proof.
  induction inputs as [|tok inputs [IH1 IH2]] using rev_ind; [done|].
  rewrite run_snoc.
  destruct (feed_issued (run inputs) tok) as [[-> ->]|[-> ->]]; [done|].
  rewrite length_app, Nat.add_1_r, numbering_S. simpl.
  split.
  - by rewrite <- IH1, IH2.
  - rewrite IH2. unfold int_add. rewrite wrap_add_l. f_equal. lia.
Qed.

Lemma issued_length_mono m tok :
  (length (issued m) ≤ length (issued (feed m tok)))%nat.
Proof.
  destruct (feed_issued m tok) as [[-> _]|[-> _]]; [done|].
  rewrite length_app. lia.
Qed.

Lemma run_issued_NoDup inputs :
  Z.of_nat (length (issued (run inputs))) ≤ INT_MAX → NoDup (issued (run inputs)).
Proof.
  intros HK. destruct (run_numbering inputs) as [-> _].
  rewrite numbering_exact by done.
  apply NoDup_fmap_2; [apply Nat2Z.inj'|apply NoDup_seq].
Qed.

(** C9.  The job numbers [main] assigns are, in order, the successive
    values of an [int] counter that starts at [1] and goes up by one per
    submission, whatever became of the earlier jobs: the [k]-th number
    assigned is [wrap k].  So while no more than [INT_MAX] = 2^31 - 1
    numbers have been assigned, the [k]-th number is [k]: the numbers
    start at [1], are strictly increasing, and none is assigned twice. *)
Theorem job_numbers_increase (inputs : list Z) :
  let K := length (issued (run inputs)) in
  issued (run inputs) = numbering K ∧
  jobCounter (run inputs) = wrap (Z.of_nat K + 1) ∧
  (Z.of_nat K ≤ INT_MAX →
     issued (run inputs) = Z.of_nat <$> seq 1 K ∧
     (∀ i x, issued (run inputs) !! i = Some x → x = Z.of_nat i + 1) ∧
     (∀ i i' x x', issued (run inputs) !! i = Some x →
        issued (run inputs) !! i' = Some x' → (i < i')%nat → x < x') ∧
     NoDup (issued (run inputs))).
Proof.
  intros K. destruct (run_numbering inputs) as [Hnum Hctr].
  split; [done|]. split; [done|]. intros HK.
  assert (Hexact : issued (run inputs) = Z.of_nat <$> seq 1 K).
  { rewrite Hnum at 1. by apply numbering_exact. }
  assert (Hnth : ∀ i x, issued (run inputs) !! i = Some x → x = Z.of_nat i + 1).
  { intros i x. rewrite Hexact, list_lookup_fmap.
    destruct (seq 1 K !! i) as [k|] eqn:Hk; [|done].
    apply lookup_seq in Hk as [-> _]. simpl. intros [= <-]. lia. }
  split; [done|]. split; [done|]. split; [|by apply run_issued_NoDup].
  intros i i' x x' ->%Hnth ->%Hnth Hlt. lia.
Qed.

(** The theorem on a session in which the first job is placed, the second
    placed, the third queued, and the first released. *)
Lemma job_numbers_increase_witness :
  let inputs := [2; 6; 6; 1; 6; 1; 6; 1; 6; 2; 1] in
  issued (run inputs) = [1; 2; 3] ∧ NoDup (issued (run inputs)).
Proof.
  intros inputs. split; [reflexivity|].
  refine (proj2 (proj2 (proj2 (proj2 (proj2 (job_numbers_increase inputs)) _)))).
  vm_compute. discriminate.
Defined.

Lemma occupants_app mem1 mem2 : occupants (mem1 ++ mem2) = occupants mem1 ++ occupants mem2.
Proof. unfold occupants. by rewrite list.filter_app, fmap_app. Qed.

Lemma occupants_cons p mem :
  occupants (p :: mem) =
  if Partition.isFree p then occupants mem else Partition.jobNumber p :: occupants mem.
Proof.
  unfold occupants. rewrite filter_cons.
  destruct (decide _) as [Hp|Hp]; destruct (Partition.isFree p); done.
Qed.

(** Marking a free partition used adds the job's number to the numbers
    the pool holds. *)
Lemma occupants_place job mem : ∀ k p,
  mem !! k = Some p → Partition.isFree p = true →
  occupants (alter (occupy job) k mem) ≡ₚ Job.jobNumber job :: occupants mem.
Proof.
  induction mem as [|q mem IH]; intros k p Hp Hfree; [done|].
  destruct k as [|k]; simpl in *.
  - injection Hp as ->. rewrite !occupants_cons. simpl. by rewrite Hfree.
  - rewrite !occupants_cons. destruct (Partition.isFree q).
    + by eapply IH.
    + rewrite (IH k p) by done. apply Permutation_swap.
Qed.

Lemma allocateJob_live job g :
  live (allocateJob job g).1 ≡ₚ Job.jobNumber job :: live g.
Proof.
  unfold allocateJob, live.
  destruct (Z.eqb_spec (bestFitScan (Job.jobSize job) (memory g)) (-1)) as [|Hb]; simpl.
  - unfold queued. rewrite fmap_app. simpl.
    by rewrite app_assoc, <- Permutation_cons_append.
  - apply bestFitScan_found in Hb as (k & p & -> & Hp & Hfree & _).
    rewrite Nat2Z.id. by rewrite (occupants_place job _ k p).
Qed.

Lemma sweepLoop_live queue : ∀ mem remaining out,
  occupants (sweepLoop queue mem remaining out).1.1
    ++ queued (sweepLoop queue mem remaining out).1.2
  ≡ₚ occupants mem ++ queued remaining ++ queued queue.
Proof.
  induction queue as [|j queue IH]; intros mem remaining out; simpl.
  { by rewrite app_nil_r. }
  destruct (Z.eqb_spec (bestFitScan (Job.jobSize j) mem) (-1)) as [|Hb]; simpl.
  - rewrite IH. unfold queued. rewrite fmap_app. simpl.
    by rewrite <- (app_assoc _ [_] _).
  - apply bestFitScan_found in Hb as (k & p & -> & Hp & Hfree & _).
    rewrite IH, Nat2Z.id, (occupants_place j _ k p) by done.
    simpl. by rewrite <- !Permutation_middle.
Qed.

Lemma tryAllocateWaiting_live g : live (tryAllocateWaiting g).1 ≡ₚ live g.
Proof.
  rewrite tryAllocateWaiting_sweepLoop. unfold live. simpl.
  by rewrite sweepLoop_live.
Qed.

Lemma deallocateJob_live n g :
  deallocateJob n g = (g, [MsgNotFound]) ∨ live g ≡ₚ n :: live (deallocateJob n g).1.
Proof.
  unfold deallocateJob.
  destruct (first_holder n (memory g)) as [Hall|(before & p & after & Heq & Hbefore & Hp)].
  - left. by apply deallocateFrom_none.
  - right. rewrite Heq at 1. rewrite deallocateFrom_first by done. simpl.
    rewrite tryAllocateWaiting_live. unfold live. simpl.
    apply holds_true in Hp as [Hused Hnum].
    rewrite Heq, !occupants_app, !occupants_cons. simpl. rewrite Hused, Hnum.
    by rewrite <- Permutation_middle.
Qed.

Lemma feed_liveOk m tok : liveOk m → NoDup (issued m) → liveOk (feed m tok).
Proof.
  intros [Hnodup Hsub] Hissued. unfold issued in Hissued.
  assert (Hkeep : ∀ out, liveOk {| phase := ReadChoice; globals := globals m;
                                   jobCounter := jobCounter m;
                                   output := output m ++ out |}).
  { intros out. split; [done|]. simpl. intros x Hx.
    rewrite submitted_app. apply elem_of_app. left. by apply Hsub. }
  unfold feed, liveOk. destruct (phase m) as [|i n| |j| |] eqn:Hphase.
  - done.
  - destruct (tok <=? 0); simpl.
    + split; [done|]. intros x Hx. rewrite submitted_app, elem_of_app. left. auto.
    + unfold live in *. simpl. rewrite occupants_app, occupants_cons. simpl.
      by rewrite app_nil_r.
  - destruct (tok =? 1); [done|]. destruct (tok =? 2); [done|].
    destruct (tok =? 3); [apply Hkeep|]. by destruct (tok =? 4).
  - destruct (tok <=? 0); simpl.
    { split; [done|]. intros x Hx. rewrite submitted_app, elem_of_app. left. auto. }
    pose proof (allocateJob_live (Job.mk j tok) (globals m)) as Hlive.
    pose proof (submitted_allocateJob (Job.mk j tok) (globals m)) as Hout.
    destruct (allocateJob _ _) as [g' out]. simpl in *.
    apply list.NoDup_app in Hissued as (_ & Hfresh & _).
    split.
    + rewrite Hlive. apply list.NoDup_cons. split; [|done].
      intros Hj%Hsub%Hfresh. apply Hj, list_elem_of_here.
    + intros x. rewrite Hlive, submitted_app, Hout, elem_of_cons, elem_of_app.
      intros [->|Hx]; [right; apply list_elem_of_here|left; auto].
  - destruct (deallocateJob_live tok (globals m)) as [Heq|Hlive].
    + rewrite Heq. apply Hkeep.
    + destruct (deallocateJob _ _) as [g' out]. simpl in *.
      rewrite Hlive in Hnodup. apply list.NoDup_cons in Hnodup as [_ Hnodup].
      split; [done|]. intros x Hx. rewrite submitted_app, elem_of_app. left.
      apply Hsub. rewrite Hlive. by apply list_elem_of_further.
  - done.
Qed.

Lemma run_liveOk inputs :
  Z.of_nat (length (issued (run inputs))) ≤ INT_MAX → liveOk (run inputs).
Proof.
  induction inputs as [|tok inputs IH] using rev_ind; intros HK.
  { split; [constructor|]. intros x Hx. by apply elem_of_nil in Hx. }
  rewrite run_snoc in *.
  pose proof (issued_length_mono (run inputs) tok) as Hmono.
  apply feed_liveOk; [apply IH; lia|apply run_issued_NoDup; lia].
Qed.

Lemma occupants_elem mem i p :
  mem !! i = Some p → Partition.isFree p = false → Partition.jobNumber p ∈ occupants mem.
Proof.
  intros Hp Hused. unfold occupants. apply list_elem_of_fmap.
  exists p. split; [done|]. apply list_elem_of_filter. split; [done|].
  by eapply list_elem_of_lookup_2.
Qed.

(** Distinct numbers among the partitions in use means one partition per
    number. *)
Lemma occupants_NoDup_inj mem : NoDup (occupants mem) →
  ∀ i i' p p', mem !! i = Some p → mem !! i' = Some p' →
    Partition.isFree p = false → Partition.isFree p' = false →
    Partition.jobNumber p = Partition.jobNumber p' → i = i'.
Proof.
  induction mem as [|q mem IH]; intros Hnodup i i' p p' Hp Hp' Hused Hused' Hnum; [done|].
  rewrite occupants_cons in Hnodup.
  destruct i as [|i], i' as [|i']; simpl in *; [done| | |].
  - injection Hp as ->. rewrite Hused in Hnodup.
    apply list.NoDup_cons in Hnodup as [Hnotin _]. destruct Hnotin.
    rewrite Hnum. by eapply occupants_elem.
  - injection Hp' as ->. rewrite Hused' in Hnodup.
    apply list.NoDup_cons in Hnodup as [Hnotin _]. destruct Hnotin.
    rewrite <- Hnum. by eapply occupants_elem.
  - f_equal. eapply (IH ltac:(destruct (Partition.isFree q);
                               [done|by apply list.NoDup_cons in Hnodup as [_ ?]]));
      eauto.
Qed.

(** C6.  In every state [main] can reach while no more than [INT_MAX] job
    numbers have been assigned (the range of the [int] counter): no two
    partitions are in use by the same job number, no job number is twice
    in the waiting queue, and no job number is both in a partition and in
    the waiting queue. *)
Theorem job_numbers_unique (inputs : list Z) :
  Z.of_nat (length (issued (run inputs))) ≤ INT_MAX →
  (∀ i i' p p',
     memory (globals (run inputs)) !! i = Some p →
     memory (globals (run inputs)) !! i' = Some p' →
     Partition.isFree p = false → Partition.isFree p' = false →
     Partition.jobNumber p = Partition.jobNumber p' → i = i') ∧
  NoDup (Job.jobNumber <$> waitingQueue (globals (run inputs))) ∧
  (∀ p j,
     p ∈ memory (globals (run inputs)) → Partition.isFree p = false →
     j ∈ waitingQueue (globals (run inputs)) →
     Partition.jobNumber p ≠ Job.jobNumber j).
Proof.
  intros HK. destruct (run_liveOk inputs HK) as [Hnodup _].
  unfold live in Hnodup. apply list.NoDup_app in Hnodup as (Hocc & Hdisj & Hqueue).
  split; [by apply occupants_NoDup_inj|]. split; [done|].
  intros p j Hp Hused Hj Heq.
  apply list_elem_of_lookup in Hp as [i Hi].
  apply (Hdisj (Partition.jobNumber p)); [by eapply occupants_elem|].
  rewrite Heq. unfold queued. apply list_elem_of_fmap. by exists j.
Qed.

(** The theorem on a session: two partitions, three jobs, one release. *)
Lemma job_numbers_unique_witness :
  let inputs := [2; 6; 6; 1; 6; 1; 6; 1; 6; 2; 1] in
  issued (run inputs) = [1; 2; 3] ∧
  NoDup (Job.jobNumber <$> waitingQueue (globals (run inputs))).
Proof.
  intros inputs. split; [reflexivity|].
  refine (proj1 (proj2 (job_numbers_unique inputs _))).
  vm_compute. discriminate.
Defined.

(** ** Pool creation (C4) *)

Section Frame.
(** A field that neither placing a job nor resetting a partition writes:
    the id, the capacity. *)
Context {A : Type} (h : Partition.t → A).
Hypothesis h_occupy : ∀ job p, h (occupy job p) = h p.
Hypothesis h_vacate : ∀ p, h (vacate p) = h p.

Lemma alter_occupy_frame job (k : nat) (mem : list Partition.t) :
  h <$> alter (occupy job) k mem = h <$> mem.
Proof.
  revert k. induction mem as [|q mem IH]; intros [|k]; csimpl; try done.
  - by rewrite h_occupy.
  - by rewrite IH.
Qed.

Lemma allocateJob_frame job g : h <$> memory (allocateJob job g).1 = h <$> memory g.
Proof.
  unfold allocateJob. destruct (_ =? _); [done|]. simpl. apply alter_occupy_frame.
Qed.

Lemma sweepLoop_frame queue : ∀ mem remaining out,
  h <$> (sweepLoop queue mem remaining out).1.1 = h <$> mem.
Proof.
  induction queue as [|j queue IH]; intros mem remaining out; [done|]. simpl.
  destruct (negb _); rewrite IH; [apply alter_occupy_frame|done].
Qed.

Lemma deallocateJob_frame n g : h <$> memory (deallocateJob n g).1 = h <$> memory g.
Proof.
  unfold deallocateJob.
  destruct (first_holder n (memory g)) as [Hall|(before & p & after & Heq & Hbefore & Hp)].
  - by rewrite deallocateFrom_none.
  - rewrite Heq at 1. rewrite deallocateFrom_first by done. simpl.
    rewrite tryAllocateWaiting_sweepLoop. simpl. rewrite sweepLoop_frame, Heq.
    rewrite !fmap_app. simpl. by rewrite h_vacate.
Qed.

(** Outside set-up, no input changes the field of any partition, nor the
    number of partitions. *)
Lemma feed_frame m tok :
  (∀ i n, phase m ≠ ReadPartitionSize i n) →
  h <$> memory (globals (feed m tok)) = h <$> memory (globals m).
Proof.
  intros Hphase. unfold feed. destruct (phase m) as [|i n| |j| |]; try done.
  - by destruct (Hphase i n).
  - destruct (tok =? 1); [done|]. destruct (tok =? 2); [done|].
    destruct (tok =? 3); [done|]. by destruct (tok =? 4).
  - destruct (tok <=? 0); [done|].
    pose proof (allocateJob_frame (Job.mk j tok) (globals m)) as H.
    by destruct (allocateJob _ _).
  - pose proof (deallocateJob_frame tok (globals m)) as H.
    by destruct (deallocateJob _ _).
Qed.
End Frame.

Lemma idsUpTo_S len : idsUpTo (S len) = idsUpTo len ++ [Z.of_nat len + 1].
Proof. unfold idsUpTo. by rewrite seq_S, fmap_app. Qed.

Lemma fmap_length_eq {A B} (f : A → B) (l1 l2 : list A) :
  f <$> l1 = f <$> l2 → length l1 = length l2.
Proof. intros H. by rewrite <- (length_fmap f l1), H, length_fmap. Qed.

Lemma feed_inMenu m tok : inMenu (phase m) → inMenu (phase (feed m tok)).
Proof.
  unfold feed. destruct (phase m) as [|i n| |j| |] eqn:Hphase; try done; intros _.
  - destruct (tok =? 1); [done|]. destruct (tok =? 2); [done|].
    destruct (tok =? 3); [done|]. destruct (tok =? 4); [done|]. by rewrite Hphase.
  - destruct (tok <=? 0); [done|]. by destruct (allocateJob _ _).
  - by destruct (deallocateJob _ _).
  - by rewrite Hphase.
Qed.

Lemma feed_poolBuilt n m tok : in_int n → poolBuilt n m → poolBuilt n (feed m tok).
Proof.
  intros Hn (Hcount & Hids & Hsizes).
  assert (inMenu (phase m) ∨ ¬ inMenu (phase m)) as [Hmenu|Hsetup]
    by (destruct (phase m); simpl; tauto).
  - assert (Hno : ∀ i n', phase m ≠ ReadPartitionSize i n').
    { intros i n' Hphase. by rewrite Hphase in Hmenu. }
    pose proof (feed_frame Partition.id (λ _ _, eq_refl) (λ _, eq_refl) m tok Hno) as Hid.
    pose proof (feed_frame Partition.size (λ _ _, eq_refl) (λ _, eq_refl) m tok Hno) as Hsz.
    pose proof (fmap_length_eq _ _ _ Hid) as Hlen.
    split; [|by rewrite Hid, Hsz, Hlen].
    pose proof (feed_inMenu m tok Hmenu) as Hmenu'. rewrite Hlen.
    destruct (phase m); try done; by destruct (phase (feed m tok)).
  - destruct (phase m) as [|i n'| |j| |] eqn:Hphase; try done; clear Hsetup.
    destruct Hcount as (-> & Hi & Hlen). unfold feed, poolBuilt. rewrite Hphase.
    destruct (Z.leb_spec tok 0); simpl; [done|].
    assert (Hnext : int_add i 1 = i + 1).
    { apply wrap_in_int. unfold in_int, INT_MIN, INT_MAX in *. lia. }
    rewrite Hnext, !fmap_app, length_app, Nat.add_1_r, idsUpTo_S, Hids. simpl.
    split; [|split].
    + destruct (Z.ltb_spec (i + 1) n); simpl; lia.
    + do 3 f_equal. lia.
    + apply Forall_app. split; [done|]. by apply Forall_singleton.
Qed.

Lemma run_poolBuilt n rest : in_int n → poolBuilt n (run (n :: rest)).
Proof.
  intros Hn. induction rest as [|tok rest IH] using rev_ind.
  - unfold run, poolBuilt. simpl. destruct (Z.ltb_spec 0 n); simpl.
    + repeat split; try done; lia.
    + repeat split; try done; lia.
  - rewrite app_comm_cons, run_snoc. by apply feed_poolBuilt.
Qed.

Lemma idsUpTo_inOrder mem :
  Partition.id <$> mem = idsUpTo (length mem) → idsInOrder mem.
Proof.
  intros Hids k p Hp.
  assert (Hk : (Partition.id <$> mem) !! k = Some (Partition.id p))
    by (by rewrite list_lookup_fmap, Hp).
  rewrite Hids in Hk. unfold idsUpTo in Hk. rewrite list_lookup_fmap in Hk.
  destruct (seq 0 (length mem) !! k) as [k'|] eqn:Hk'; [|done].
  apply lookup_seq in Hk' as [-> _]. simpl in Hk. by injection Hk as <-.
Qed.

(** What set-up does check.  A partition size [≤ 0] is answered with
    "Invalid size.  Try again." and asked for again, and no partition is
    created for it.  So every partition of the pool has a positive
    capacity, the ids are [1], [2], ... in pool order, and once all sizes
    are read the pool has as many partitions as the count [n] said. *)
Lemma pool_creation (n : Z) (rest : list Z) :
  in_int n →
  (∀ i n' tok,
     phase (run (n :: rest)) = ReadPartitionSize i n' → tok ≤ 0 →
     feed (run (n :: rest)) tok =
       {| phase := ReadPartitionSize i n';
          globals := globals (run (n :: rest));
          jobCounter := jobCounter (run (n :: rest));
          output := output (run (n :: rest)) ++ [MsgInvalidSize] |}) ∧
  (∀ i n' tok,
     phase (run (n :: rest)) = ReadPartitionSize i n' → 0 < tok →
     memory (globals (feed (run (n :: rest)) tok)) =
       memory (globals (run (n :: rest))) ++ [Partition.mk (i + 1) tok true (-1) 0 0]) ∧
  Forall (λ p, 0 < Partition.size p) (memory (globals (run (n :: rest)))) ∧
  idsInOrder (memory (globals (run (n :: rest)))) ∧
  match phase (run (n :: rest)) with
  | ReadCount => False
  | ReadPartitionSize i n' =>
      n' = n ∧ 0 ≤ i < n ∧ Z.of_nat (length (memory (globals (run (n :: rest))))) = i
  | _ => length (memory (globals (run (n :: rest)))) = Z.to_nat n
  end.
Proof.
  intros Hn. destruct (run_poolBuilt n rest Hn) as (Hcount & Hids & Hsizes).
  split; [|split; [|split; [|split]]].
  - intros i n' tok Hphase Htok. unfold feed. rewrite Hphase.
    by destruct (Z.leb_spec tok 0); [|lia].
  - intros i n' tok Hphase Htok. unfold feed. rewrite Hphase.
    rewrite Hphase in Hcount. destruct Hcount as (-> & Hi & _).
    destruct (Z.leb_spec tok 0); [lia|]. simpl. do 3 f_equal.
    apply wrap_in_int. unfold in_int, INT_MIN, INT_MAX in *. lia.
  - rewrite Forall_fmap in Hsizes. exact Hsizes.
  - by apply idsUpTo_inOrder.
  - done.
Qed.

(** The lemma at a count of [2] with one size refused on the way. *)
Lemma pool_creation_witness :
  memory (globals (run [2; 6; 0])) = [Partition.mk 1 6 true (-1) 0 0] ∧
  output (feed (run [2; 6; 0]) (-4)) = [MsgInvalidSize; MsgInvalidSize] ∧
  memory (globals (feed (run [2; 6; 0]) 9)) =
    [Partition.mk 1 6 true (-1) 0 0; Partition.mk 2 9 true (-1) 0 0].
Proof.
  assert (Hn : in_int 2) by (unfold in_int, INT_MIN, INT_MAX; lia).
  destruct (pool_creation 2 [6; 0] Hn) as (Hrefuse & Haccept & _).
  split; [reflexivity|]. split.
  - rewrite (Hrefuse 1 2 (-4)); [reflexivity|reflexivity|lia].
  - rewrite (Haccept 1 2 9); [reflexivity|reflexivity|lia].
Defined.

(** C4.  The specification has pool creation fail on an empty sequence of
    sizes, so that a pool of zero partitions never exists.  [main] checks
    each size but not the count: for every count [n ≤ 0] it asks for no
    size, prints nothing at all -- no complaint, no second prompt --,
    leaves the pool with zero partitions and goes to the menu with the
    job counter at [1].  There the program runs on that empty pool: a
    status report divides by the number of partitions, which is zero, and
    shows a utilization that is not a number; a job of any size is
    queued, since nothing can ever hold it. *)
Theorem empty_count_is_accepted (n : Z) :
  n ≤ 0 →
  run [n] =
    {| phase := ReadChoice;
       globals := {| memory := []; waitingQueue := []; deallocatedJobs := [] |};
       jobCounter := 1;
       output := [] |} ∧
  (∃ r, output (run [n; 3]) = [MsgStatus r] ∧
        rows r = [] ∧ PrimFloat.is_nan (utilization r) = true) ∧
  (∀ s, 0 < s →
     output (run [n; 1; s]) = [MsgQueued 1] ∧
     memory (globals (run [n; 1; s])) = [] ∧
     waitingQueue (globals (run [n; 1; s])) = [Job.mk 1 s]).
Proof.
  intros Hn.
  assert (Hrun : run [n] =
                 {| phase := ReadChoice;
                    globals := {| memory := []; waitingQueue := []; deallocatedJobs := [] |};
                    jobCounter := 1; output := [] |}).
  { unfold run. simpl. unfold feed. simpl. by destruct (Z.ltb_spec 0 n); [lia|]. }
  split; [done|]. split.
  - change [n; 3] with ([n] ++ [3]). rewrite run_snoc, Hrun.
    eexists. split; [reflexivity|]. split; reflexivity.
  - intros s Hs. change [n; 1; s] with (([n] ++ [1]) ++ [s]).
    rewrite !run_snoc, Hrun. unfold feed at 2. simpl. unfold feed. simpl.
    by destruct (Z.leb_spec s 0); [lia|].
Qed.

(** The theorem at the count [0]. *)
Lemma empty_count_is_accepted_witness :
  memory (globals (run [0])) = [] ∧ output (run [0]) = [] ∧
  phase (run [0]) = ReadChoice ∧
  output (run [0; 1; 5]) = [MsgQueued 1].
Proof.
  assert (H0 : 0 ≤ 0) by lia.
  destruct (empty_count_is_accepted 0 H0) as (Hrun & _ & Hjob).
  split; [by rewrite Hrun|]. split; [by rewrite Hrun|]. split; [by rewrite Hrun|].
  apply (Hjob 5). lia.
Defined.

(** ** Memory utilization (C8) *)

Lemma utilizationStep_fold mem : ∀ u,
  fold_left utilizationStep mem u =
  fold_left PrimFloat.add (share <$> filter (λ p, Partition.isFree p = false) mem) u.
Proof.
  induction mem as [|p mem IH]; intros u; [done|].
  rewrite filter_cons. simpl. unfold utilizationStep at 2. fold (share p).
  destruct (decide _) as [Hp|Hp]; destruct (Partition.isFree p); try done;
    csimpl; apply IH.
Qed.

(** C8.  The utilization [showStatus] reports is the sum, taken in pool
    order in binary64 arithmetic from [0.0], of [job size / capacity * 100]
    over the partitions in use -- a free partition adds nothing --,
    divided by the number of all partitions, free ones included. *)
Theorem utilization_is_count_weighted (g : Globals) :
  utilization (showStatus g) =
  PrimFloat.div
    (fold_left PrimFloat.add
       (share <$> filter (λ p, Partition.isFree p = false) (memory g))
       (to_double 0))
    (to_double (Z.of_nat (length (memory g)))).
Proof.
  unfold showStatus. destruct (fold_left fragmentStep _ _) as [total usedCount].
  simpl. unfold memoryUtilization. by rewrite utilizationStep_fold.
Qed.

(** One partition of three in use, and fully: a third of a hundred. *)
Example utilization_one_of_three :
  memoryUtilization [Partition.mk 1 10 true (-1) 0 0;
                     Partition.mk 2 4 false 1 4 0;
                     Partition.mk 3 8 true (-1) 0 0]
  = PrimFloat.div (to_double 100) (to_double 3).
Proof. reflexivity. Qed.

(** Count-weighted: capacities 10 and 100 holding 5 and 100 give
    (50 + 100) / 2 = 75, not 105 / 110. *)
Example utilization_not_capacity_weighted :
  memoryUtilization [Partition.mk 1 10 false 1 5 5; Partition.mk 2 100 false 2 100 0]
  = to_double 75.
Proof. reflexivity. Qed.

(** With no partition at all the division is [0.0 / 0.0]. *)
Example utilization_empty_pool : PrimFloat.is_nan (memoryUtilization []) = true.
Proof. reflexivity. Qed.

(** * Further properties *)

Lemma run_app inputs more : run (inputs ++ more) = fold_left feed more (run inputs).
Proof. unfold run. by rewrite fold_left_app. Qed.

(** ** Jobs are neither lost nor duplicated *)

Lemma released_app out1 out2 : released (out1 ++ out2) = released out1 ++ released out2.
Proof. apply omap_app. Qed.

Lemma released_none out :
  (∀ msg, msg ∈ out → releasedOf msg = None) → released out = [].
Proof.
  induction out as [|msg out IH]; intros Hout; [done|].
  unfold released. simpl. rewrite (Hout msg) by apply list_elem_of_here.
  apply IH. intros msg' Hmsg'. apply Hout. by apply list_elem_of_further.
Qed.

Lemma released_tryAllocateWaiting g : released (tryAllocateWaiting g).2 = [].
Proof.
  apply released_none. intros msg Hmsg.
  by apply tryAllocateWaiting_msgs in Hmsg as (j & pid & ->).
Qed.

Lemma released_allocateJob job g : released (allocateJob job g).2 = [].
Proof. unfold allocateJob. by destruct (_ =? _). Qed.

Lemma history_allocateJob job g : history (allocateJob job g).1 = history g.
Proof. unfold allocateJob. by destruct (_ =? _). Qed.

(** What a release does to the books: nothing when the job is not found;
    otherwise the number leaves the partitions, enters the history, and is
    announced once. *)
Lemma deallocateJob_accounts n g :
  deallocateJob n g = (g, [MsgNotFound]) ∨
  (live g ≡ₚ n :: live (deallocateJob n g).1 ∧
   history (deallocateJob n g).1 = history g ++ [n] ∧
   released (deallocateJob n g).2 = [n]).
Proof.
  unfold deallocateJob.
  destruct (first_holder n (memory g)) as [Hall|(before & p & after & Heq & Hbefore & Hp)].
  - left. by apply deallocateFrom_none.
  - right. rewrite Heq at 1 2 3. rewrite deallocateFrom_first by done. simpl.
    pose proof Hp as [Hused Hnum]%holds_true.
    split; [|split].
    + rewrite tryAllocateWaiting_live. unfold live. simpl.
      rewrite Heq, !occupants_app, !occupants_cons. simpl. rewrite Hused, Hnum.
      by rewrite <- Permutation_middle.
    + rewrite tryAllocateWaiting_sweepLoop. unfold history. simpl.
      by rewrite fmap_app, Hnum.
    + unfold released. simpl. f_equal. apply released_tryAllocateWaiting.
Qed.

Lemma deallocateJob_history_prefix n g :
  deallocatedJobs g `prefix_of` deallocatedJobs (deallocateJob n g).1.
Proof.
  unfold deallocateJob.
  destruct (first_holder n (memory g)) as [Hall|(before & p & after & Heq & Hbefore & Hp)].
  - by rewrite deallocateFrom_none.
  - rewrite Heq, deallocateFrom_first by done. simpl.
    rewrite tryAllocateWaiting_sweepLoop. simpl. by apply prefix_app_r.
Qed.

Lemma live_pushPartition g k s : live (pushPartition (Partition.mk k s true (-1) 0 0) g) = live g.
Proof.
  unfold live, pushPartition. simpl.
  rewrite occupants_app, occupants_cons. simpl. by rewrite app_nil_r.
Qed.

Lemma feed_accounted m tok :
  submitted (output m) ≡ₚ live (globals m) ++ history (globals m) →
  submitted (output (feed m tok))
  ≡ₚ live (globals (feed m tok)) ++ history (globals (feed m tok)).
Proof.
  intros Hm. unfold feed. destruct (phase m) as [|i n| |j| |] eqn:Hphase.
  - done.
  - destruct (tok <=? 0); simpl.
    + by rewrite submitted_app, app_nil_r.
    + by rewrite live_pushPartition.
  - destruct (tok =? 1); [done|]. destruct (tok =? 2); [done|].
    destruct (tok =? 3); [simpl; by rewrite submitted_app, app_nil_r|].
    by destruct (tok =? 4).
  - destruct (tok <=? 0); simpl; [by rewrite submitted_app, app_nil_r|].
    pose proof (allocateJob_live (Job.mk j tok) (globals m)) as Hlive.
    pose proof (submitted_allocateJob (Job.mk j tok) (globals m)) as Hsub.
    pose proof (history_allocateJob (Job.mk j tok) (globals m)) as Hhist.
    destruct (allocateJob _ _) as [g' out]. simpl in *.
    rewrite submitted_app, Hsub, Hlive, Hhist, Hm. simpl.
    by rewrite <- Permutation_cons_append.
  - pose proof (submitted_deallocateJob tok (globals m)) as Hsub.
    destruct (deallocateJob_accounts tok (globals m)) as [Heq|(Hlive & Hhist & _)].
    + rewrite Heq. simpl. by rewrite submitted_app, app_nil_r.
    + destruct (deallocateJob _ _) as [g' out]. simpl in *.
      rewrite submitted_app, Hsub, app_nil_r, Hhist, Hm, Hlive. simpl.
      by rewrite app_assoc, <- Permutation_cons_append.
  - done.
Qed.

Lemma run_accounted inputs :
  submitted (output (run inputs))
  ≡ₚ live (globals (run inputs)) ++ history (globals (run inputs)).
Proof.
  induction inputs as [|tok inputs IH] using rev_ind; [done|].
  rewrite run_snoc. by apply feed_accounted.
Qed.

Lemma feed_history m tok :
  history (globals m) = released (output m) →
  history (globals (feed m tok)) = released (output (feed m tok)).
Proof.
  intros Hm. unfold feed. destruct (phase m) as [|i n| |j| |] eqn:Hphase.
  - done.
  - destruct (tok <=? 0); simpl; [|done].
    by rewrite released_app, app_nil_r.
  - destruct (tok =? 1); [done|]. destruct (tok =? 2); [done|].
    destruct (tok =? 3); [simpl; by rewrite released_app, app_nil_r|].
    by destruct (tok =? 4).
  - destruct (tok <=? 0); simpl; [by rewrite released_app, app_nil_r|].
    pose proof (released_allocateJob (Job.mk j tok) (globals m)) as Hrel.
    pose proof (history_allocateJob (Job.mk j tok) (globals m)) as Hhist.
    destruct (allocateJob _ _) as [g' out]. simpl in *.
    by rewrite released_app, Hrel, app_nil_r, Hhist.
  - destruct (deallocateJob_accounts tok (globals m)) as [Heq|(_ & Hhist & Hrel)].
    + rewrite Heq. simpl. by rewrite released_app, app_nil_r.
    + destruct (deallocateJob _ _) as [g' out]. simpl in *.
      by rewrite released_app, Hrel, Hhist, Hm.
  - done.
Qed.

Lemma feed_history_prefix m tok :
  deallocatedJobs (globals m) `prefix_of` deallocatedJobs (globals (feed m tok)).
Proof.
  unfold feed. destruct (phase m) as [|i n| |j| |] eqn:Hphase; try done.
  - by destruct (tok <=? 0).
  - destruct (tok =? 1); [done|]. destruct (tok =? 2); [done|].
    destruct (tok =? 3); [done|]. by destruct (tok =? 4).
  - destruct (tok <=? 0); [done|]. unfold allocateJob. by destruct (_ =? _).
  - pose proof (deallocateJob_history_prefix tok (globals m)) as Hpre.
    by destruct (deallocateJob _ _).
Qed.

(** X1.  Every job [allocateJob] was called with is accounted for: the
    numbers announced by [allocateJob] are, up to order, the numbers held
    by partitions, those in the waiting queue and those in the
    deallocation history together.  No job is lost and none is counted
    twice, on any input. *)
Theorem jobs_accounted_for (inputs : list Z) :
  submitted (output (run inputs))
  ≡ₚ (occupants (memory (globals (run inputs)))
      ++ queued (waitingQueue (globals (run inputs)))
      ++ history (globals (run inputs))).
Proof. rewrite app_assoc. apply run_accounted. Qed.

(** X2.  While no more than [INT_MAX] job numbers have been assigned, a
    job number is in exactly one place: the numbers held by partitions,
    queued and in the history are pairwise different.  So a released job
    is in no partition and not in the queue, and no job is released
    twice. *)
Theorem released_jobs_stay_released (inputs : list Z) :
  Z.of_nat (length (issued (run inputs))) ≤ INT_MAX →
  NoDup (occupants (memory (globals (run inputs)))
         ++ queued (waitingQueue (globals (run inputs)))
         ++ history (globals (run inputs))) ∧
  (∀ x, x ∈ history (globals (run inputs)) →
        (x ∉ occupants (memory (globals (run inputs)))) ∧
        (x ∉ queued (waitingQueue (globals (run inputs))))).
Proof.
  intros HK.
  assert (Hnodup : NoDup (occupants (memory (globals (run inputs)))
                          ++ queued (waitingQueue (globals (run inputs)))
                          ++ history (globals (run inputs)))).
  { pose proof (run_accounted inputs) as Hacc. unfold live in Hacc.
    rewrite app_assoc, <- Hacc.
    pose proof (run_issued_NoDup inputs HK) as Hissued.
    unfold issued in Hissued. by apply list.NoDup_app in Hissued as (? & _). }
  split; [done|]. intros x Hx.
  apply list.NoDup_app in Hnodup as (_ & Hocc & Hrest).
  apply list.NoDup_app in Hrest as (_ & Hq & _).
  split.
  - intros Hin. apply (Hocc x Hin). apply elem_of_app. by right.
  - intros Hin. by apply (Hq x Hin).
Qed.

(** The theorem on a session with one job placed, one queued, one released. *)
Lemma released_jobs_stay_released_witness :
  let inputs := [1; 6; 1; 6; 1; 9; 2; 1] in
  history (globals (run inputs)) = [1] ∧
  NoDup (occupants (memory (globals (run inputs)))
         ++ queued (waitingQueue (globals (run inputs)))
         ++ history (globals (run inputs))).
Proof.
  intros inputs. split; [reflexivity|].
  refine (proj1 (released_jobs_stay_released inputs _)).
  vm_compute. discriminate.
Defined.

(** X3.  The deallocation history is append-only and mirrors the output:
    whatever is fed to the program next, the history it has now is a
    prefix of the history it has later; and the job numbers in the history
    are, in order, exactly those of the "deallocated" messages printed. *)
Theorem history_is_append_only (inputs more : list Z) :
  deallocatedJobs (globals (run inputs))
    `prefix_of` deallocatedJobs (globals (run (inputs ++ more))) ∧
  history (globals (run inputs)) = released (output (run inputs)).
Proof.
  split.
  - induction more as [|tok more IH] using rev_ind.
    + by rewrite app_nil_r.
    + rewrite app_assoc, run_snoc. etrans; [exact IH|]. apply feed_history_prefix.
  - clear more. induction inputs as [|tok inputs IH] using rev_ind; [done|].
    rewrite run_snoc. by apply feed_history.
Qed.

(** ** The pool after set-up *)

Lemma fold_feed_inMenu more : ∀ m,
  inMenu (phase m) → inMenu (phase (fold_left feed more m)).
Proof.
  induction more as [|tok more IH]; intros m Hm; [done|].
  simpl. by apply IH, feed_inMenu.
Qed.

Lemma fold_feed_frame {A} (h : Partition.t → A) more : ∀ m,
  (∀ job p, h (occupy job p) = h p) → (∀ p, h (vacate p) = h p) →
  inMenu (phase m) →
  h <$> memory (globals (fold_left feed more m)) = h <$> memory (globals m).
Proof.
  induction more as [|tok more IH]; intros m Hocc Hvac Hm; [done|].
  simpl. rewrite IH by (done || by apply feed_inMenu).
  apply feed_frame; [done|done|].
  intros i n Hphase. by rewrite Hphase in Hm.
Qed.

(** X4.  Once the sizes are read, the pool is fixed: whatever is fed to
    the program afterwards, the partitions keep their number, their ids
    and their capacities.  Nothing is ever added, removed, renumbered,
    resized, split or merged. *)
Theorem pool_is_fixed_after_setup (inputs more : list Z) :
  inMenu (phase (run inputs)) →
  length (memory (globals (run (inputs ++ more))))
    = length (memory (globals (run inputs))) ∧
  Partition.id <$> memory (globals (run (inputs ++ more)))
    = Partition.id <$> memory (globals (run inputs)) ∧
  Partition.size <$> memory (globals (run (inputs ++ more)))
    = Partition.size <$> memory (globals (run inputs)).
Proof.
  intros Hmenu. rewrite run_app.
  pose proof (fold_feed_frame Partition.id more (run inputs)
                (λ _ _, eq_refl) (λ _, eq_refl) Hmenu) as Hid.
  pose proof (fold_feed_frame Partition.size more (run inputs)
                (λ _ _, eq_refl) (λ _, eq_refl) Hmenu) as Hsize.
  split; [|done]. by apply (fmap_length_eq Partition.id).
Qed.

(** The theorem on a pool {5, 10} and a session behind it. *)
Lemma pool_is_fixed_after_setup_witness :
  Partition.size <$> memory (globals (run ([2; 5; 10] ++ [1; 4; 1; 20; 2; 1; 3])))
  = [5; 10].
Proof.
  refine (eq_trans (proj2 (proj2 (pool_is_fixed_after_setup [2; 5; 10] _ _))) _).
  - exact I.
  - reflexivity.
Defined.

(** ** Reading sizes *)

Lemma replicate_snoc {A} (n : nat) (x : A) : replicate n x ++ [x] = replicate (S n) x.
Proof. induction n as [|n IH]; [done|]. simpl. by rewrite IH. Qed.

(** X5.  A job keeps the number it was given while its size is asked for
    again: at the job-size prompt, any run of sizes [≤ 0] followed by a
    size [s > 0] leaves the program where the size [s] alone would have,
    but for one "Invalid size" message per refused size.  A refused size
    is never clamped or used, and it consumes no job number. *)
Theorem invalid_job_sizes_are_asked_again (bad : list Z) (s j : Z) (m : Machine) :
  phase m = ReadJobSize j →
  Forall (λ t, t ≤ 0) bad →
  0 < s →
  fold_left feed (bad ++ [s]) m =
  {| phase := ReadChoice;
     globals := (allocateJob (Job.mk j s) (globals m)).1;
     jobCounter := jobCounter m;
     output := output m ++ replicate (length bad) MsgInvalidSize
                 ++ (allocateJob (Job.mk j s) (globals m)).2 |}.
Proof.
  revert m. induction bad as [|t bad IH]; intros m Hphase Hbad Hs; simpl.
  - unfold feed. rewrite Hphase. destruct (Z.leb_spec s 0); [lia|].
    by destruct (allocateJob _ _).
  - apply Forall_cons_iff in Hbad as [Ht Hbad].
    assert (Hfeed : feed m t = {| phase := ReadJobSize j; globals := globals m;
                                  jobCounter := jobCounter m;
                                  output := output m ++ [MsgInvalidSize] |}).
    { unfold feed. rewrite Hphase. by destruct (Z.leb_spec t 0); [|lia]. }
    rewrite Hfeed, IH by done. simpl. by rewrite <- app_assoc.
Qed.

(** The theorem at two refused sizes before an accepted one. *)
Lemma invalid_job_sizes_are_asked_again_witness :
  fold_left feed ([0; -3] ++ [4]) (run [1; 5; 1]) =
  {| phase := ReadChoice;
     globals := {| memory := [Partition.mk 1 5 false 1 4 1];
                   waitingQueue := []; deallocatedJobs := [] |};
     jobCounter := 2;
     output := [MsgInvalidSize; MsgInvalidSize; MsgAllocated 1 1] |}.
Proof.
  refine (eq_trans (invalid_job_sizes_are_asked_again [0; -3] 4 1 (run [1; 5; 1]) _ _ _) _).
  - reflexivity.
  - repeat (apply List.Forall_cons; [lia|]). apply List.Forall_nil.
  - lia.
  - reflexivity.
Defined.

Lemma filter_positive_snoc toks t :
  filter (λ t, 0 < t) (toks ++ [t]) =
  filter (λ t, 0 < t) toks ++ (if 0 <? t then [t] else []).
Proof.
  rewrite list.filter_app. f_equal. rewrite filter_cons.
  destruct (decide (0 < t)), (Z.ltb_spec 0 t); (done || lia).
Qed.

(** Set-up on a count [n > 0]: as long as no more than [n] positive sizes
    have been supplied, the pool is those sizes in order, and set-up is
    over exactly when there are [n] of them. *)
Lemma run_setup n toks :
  0 < n → in_int n →
  Z.of_nat (length (filter (λ t, 0 < t) toks)) ≤ n →
  memory (globals (run (n :: toks))) = imap freshPartition (filter (λ t, 0 < t) toks) ∧
  waitingQueue (globals (run (n :: toks))) = [] ∧
  phase (run (n :: toks)) =
    if Z.of_nat (length (filter (λ t, 0 < t) toks)) <? n
    then ReadPartitionSize (Z.of_nat (length (filter (λ t, 0 < t) toks))) n
    else ReadChoice.
Proof.
  intros Hn Hint. induction toks as [|t toks IH] using rev_ind; intros Hlen.
  { unfold run. simpl. change (Z.of_nat 0) with 0.
    by destruct (Z.ltb_spec 0 n); [|lia]. }
  rewrite filter_positive_snoc in *. rewrite length_app in *.
  destruct IH as (Hmem & Hq & Hphase); [lia|].
  rewrite app_comm_cons, run_snoc. unfold feed. rewrite Hphase.
  remember (length (filter (λ t, 0 < t) toks)) as len eqn:Hlen_def.
  destruct (Z.ltb_spec 0 t) as [Ht|Ht]; simpl in Hlen; simpl length.
  - destruct (Z.ltb_spec (Z.of_nat len) n); [|lia].
    destruct (Z.leb_spec t 0); [lia|]. simpl.
    assert (Hnext : int_add (Z.of_nat len) 1 = Z.of_nat len + 1).
    { apply wrap_in_int. unfold in_int, INT_MIN, INT_MAX in *. lia. }
    rewrite Hnext, Hmem, Hq, imap_app. simpl.
    rewrite <- Hlen_def, Nat.add_0_r, Nat2Z.inj_add. done.
  - rewrite app_nil_r, Nat.add_0_r.
    destruct (Z.ltb_spec (Z.of_nat len) n).
    + by destruct (Z.leb_spec t 0); [|lia].
    + destruct (Z.eqb_spec t 1); [lia|]. destruct (Z.eqb_spec t 2); [lia|].
      destruct (Z.eqb_spec t 3); [lia|]. destruct (Z.eqb_spec t 4); [lia|].
      by rewrite Hphase.
Qed.

(** X6.  The pool [main] builds is exactly the positive sizes it is
    given: for a count [n > 0] and any stream of answers holding at most
    [n] positive ones, the partitions are those positive answers in
    order, with ids [1], [2], ..., all free, the answers [≤ 0] having
    been skipped; and the menu starts exactly when the [n]-th positive
    size has been read. *)
Theorem pool_is_the_positive_sizes (n : Z) (toks : list Z) :
  0 < n → in_int n →
  Z.of_nat (length (filter (λ t, 0 < t) toks)) ≤ n →
  memory (globals (run (n :: toks))) = imap freshPartition (filter (λ t, 0 < t) toks) ∧
  (inMenu (phase (run (n :: toks))) ↔
   Z.of_nat (length (filter (λ t, 0 < t) toks)) = n).
Proof.
  intros Hn Hint Hlen. destruct (run_setup n toks Hn Hint Hlen) as (Hmem & _ & Hphase).
  split; [done|]. rewrite Hphase.
  destruct (Z.ltb_spec (Z.of_nat (length (filter (λ t, 0 < t) toks))) n); simpl.
  - split; [done|lia].
  - split; [lia|done].
Qed.

(** The theorem at a count of [2] and the answers 6, 0, -1, 9. *)
Lemma pool_is_the_positive_sizes_witness :
  memory (globals (run (2 :: [6; 0; -1; 9])))
  = [Partition.mk 1 6 true (-1) 0 0; Partition.mk 2 9 true (-1) 0 0].
Proof.
  refine (eq_trans (proj1 (pool_is_the_positive_sizes 2 [6; 0; -1; 9] _ _ _)) _).
  - lia.
  - unfold in_int, INT_MIN, INT_MAX. lia.
  - vm_compute. discriminate.
  - reflexivity.
Defined.

(** ** A job waits only when nothing fits *)

Lemma bestFitScan_none s mem :
  0 < s → sizesInInt mem → (∀ k p, ¬ candidate mem s k p) → bestFitScan s mem = -1.
Proof.
  intros Hs Hsizes Hnone.
  destruct (bestFitScan_scanned s Hs mem Hsizes)
    as [f [(Hb & _)|(k & p & _ & [Hc _] & _)]]; [done|].
  by destruct (Hnone k p).
Qed.

Lemma bestFitScan_only s mem i p :
  0 < s → sizesInInt mem → candidate mem s i p →
  (∀ k q, candidate mem s k q → k = i) → bestFitScan s mem = Z.of_nat i.
Proof.
  intros Hs Hsizes Hc Honly.
  destruct (bestFitScan_scanned s Hs mem Hsizes)
    as [f [(_ & _ & Hnone)|(k & q & Hb & [Hk _] & _)]].
  - by destruct (Hnone i p).
  - by rewrite Hb, (Honly k q Hk).
Qed.

(** Marking a partition used creates no candidate. *)
Lemma candidate_alter_occupy j k mem s k' p' :
  candidate (alter (occupy j) k mem) s k' p' → candidate mem s k' p'.
Proof.
  intros (Hp' & Hfree & Hle). destruct (decide (k = k')) as [->|Hne].
  - rewrite list_lookup_alter_eq in Hp'. destruct (mem !! k') as [q|]; [|done].
    simpl in Hp'. injection Hp' as <-. done.
  - rewrite list_lookup_alter_ne in Hp' by done. done.
Qed.

Lemma starved_alter_occupy j k mem queue :
  starved mem queue → starved (alter (occupy j) k mem) queue.
Proof.
  intros Hst j' Hj' k' p' Hc. eapply Hst; [done|]. by eapply candidate_alter_occupy.
Qed.

(** The loop of the sweep passes over jobs that fit nowhere. *)
Lemma sweepLoop_starved_prefix q1 : ∀ queue mem remaining out,
  sizesInInt mem → queueOk q1 → starved mem q1 →
  sweepLoop (q1 ++ queue) mem remaining out = sweepLoop queue mem (remaining ++ q1) out.
Proof.
  induction q1 as [|j q1 IH]; intros queue mem remaining out Hsizes Hq Hst; simpl.
  { by rewrite app_nil_r. }
  apply Forall_cons_iff in Hq as [Hj Hq].
  rewrite (bestFitScan_none _ _ Hj Hsizes) by (apply Hst, list_elem_of_here).
  simpl. rewrite IH; [by rewrite <- app_assoc|done|done|].
  intros j' Hj'. apply Hst. by apply list_elem_of_further.
Qed.

Lemma sweepLoop_starved queue mem remaining out :
  sizesInInt mem → queueOk queue → starved mem queue →
  sweepLoop queue mem remaining out = (mem, remaining ++ queue, out).
Proof.
  intros Hsizes Hq Hst.
  rewrite <- (app_nil_r queue) at 1. by rewrite sweepLoop_starved_prefix.
Qed.

(** A pass creates no candidate, so the jobs it leaves fit nowhere in the
    pool it leaves. *)
Lemma Sweep_candidates mem queue mem' remaining placements :
  Sweep mem queue mem' remaining placements →
  ∀ s k p, candidate mem' s k p → candidate mem s k p.
Proof.
  induction 1 as [mem|mem j queue k0 p0 mem' rem pl _ _ IH
                 |mem j queue mem' rem pl _ _ IH]; intros s k p Hc; [done| |by apply IH].
  eapply candidate_alter_occupy. by apply IH.
Qed.

Lemma Sweep_starved mem queue mem' remaining placements :
  Sweep mem queue mem' remaining placements → starved mem' remaining.
Proof.
  induction 1 as [mem|mem j queue k0 p0 mem' rem pl _ _ IH
                 |mem j queue mem' rem pl Hnone Hsw IH]; [|done|].
  - intros j Hj. by apply elem_of_nil in Hj.
  - intros j' [->|Hj']%elem_of_cons k p Hc; [|by eapply IH].
    eapply Hnone. by eapply Sweep_candidates.
Qed.

Lemma tryAllocateWaiting_starved g :
  sizesInInt (memory g) → queueOk (waitingQueue g) →
  starved (memory (tryAllocateWaiting g).1) (waitingQueue (tryAllocateWaiting g).1).
Proof.
  intros Hsizes Hq.
  destruct (sweepLoop_Sweep _ _ Hsizes Hq) as (pl & Hsweep & _).
  rewrite tryAllocateWaiting_sweepLoop. simpl. by eapply Sweep_starved.
Qed.

Lemma sizesInInt_frame mem mem' :
  Partition.size <$> mem' = Partition.size <$> mem → sizesInInt mem → sizesInInt mem'.
Proof.
  unfold sizesInInt. intros Heq Hsizes.
  apply (Forall_fmap Partition.size in_int). rewrite Heq.
  by apply (Forall_fmap Partition.size in_int).
Qed.

Lemma tryAllocateWaiting_sizesInInt g :
  sizesInInt (memory g) → sizesInInt (memory (tryAllocateWaiting g).1).
Proof.
  apply sizesInInt_frame. rewrite tryAllocateWaiting_sweepLoop. simpl.
  by apply sweepLoop_frame.
Qed.

(** X7.  After a sweep no queued job fits a free partition, so a sweep
    right after a sweep does nothing: it places no job, prints nothing and
    returns the state it was given. *)
Theorem sweep_twice_is_sweep_once (g : Globals) :
  sizesInInt (memory g) →
  queueOk (waitingQueue g) →
  starved (memory (tryAllocateWaiting g).1) (waitingQueue (tryAllocateWaiting g).1) ∧
  tryAllocateWaiting (tryAllocateWaiting g).1 = ((tryAllocateWaiting g).1, []).
Proof.
  intros Hsizes Hq.
  pose proof (tryAllocateWaiting_starved g Hsizes Hq) as Hst.
  pose proof (tryAllocateWaiting_sizesInInt g Hsizes) as Hsizes'.
  pose proof (tryAllocateWaiting_queueOk g Hq) as Hq'.
  split; [done|].
  rewrite (tryAllocateWaiting_sweepLoop (tryAllocateWaiting g).1).
  rewrite sweepLoop_starved by done. simpl.
  by destruct (tryAllocateWaiting g) as [[mem' q' hist'] out'].
Qed.

(** The theorem at a pool {5, 10} and a queue of sizes 8, 20, 4. *)
Lemma sweep_twice_is_sweep_once_witness :
  let g := {| memory := [Partition.mk 1 5 true (-1) 0 0; Partition.mk 2 10 true (-1) 0 0];
              waitingQueue := [Job.mk 1 8; Job.mk 2 20; Job.mk 3 4];
              deallocatedJobs := [] |} in
  waitingQueue (tryAllocateWaiting g).1 = [Job.mk 2 20] ∧
  tryAllocateWaiting (tryAllocateWaiting g).1 = ((tryAllocateWaiting g).1, []).
Proof.
  intros g. split; [reflexivity|].
  refine (proj2 (sweep_twice_is_sweep_once g _ _)).
  - repeat (apply List.Forall_cons; [unfold in_int, INT_MIN, INT_MAX; simpl; lia|]).
    apply List.Forall_nil.
  - repeat (apply List.Forall_cons; [simpl; lia|]). apply List.Forall_nil.
Defined.

Lemma allocateJob_starved job g :
  sizesInInt (memory g) → 0 < Job.jobSize job →
  starved (memory g) (waitingQueue g) →
  starved (memory (allocateJob job g).1) (waitingQueue (allocateJob job g).1).
Proof.
  intros Hsizes Hs Hst. unfold allocateJob.
  destruct (bestFitScan_scanned _ Hs _ Hsizes)
    as [f [(Hb & _ & Hnone)|(k & p & Hb & _ & _)]]; rewrite Hb.
  - simpl. intros j [Hj|Hj%list_elem_of_singleton]%elem_of_app; [by apply Hst|by subst j].
  - destruct (Z.eqb_spec (Z.of_nat k) (-1)); [lia|]. simpl.
    by apply starved_alter_occupy.
Qed.

Lemma deallocateJob_starved n g :
  sizesInInt (memory g) → queueOk (waitingQueue g) →
  starved (memory g) (waitingQueue g) →
  starved (memory (deallocateJob n g).1) (waitingQueue (deallocateJob n g).1).
Proof.
  intros Hsizes Hq Hst. unfold deallocateJob.
  destruct (first_holder n (memory g)) as [Hall|(before & p & after & Heq & Hbefore & Hp)].
  - by rewrite deallocateFrom_none.
  - rewrite Heq at 1 2. rewrite deallocateFrom_first by done. simpl.
    apply tryAllocateWaiting_starved; [|done]. simpl.
    eapply sizesInInt_frame; [|exact Hsizes].
    rewrite Heq, !fmap_app. done.
Qed.

(** During set-up the queue is empty; at all times it is starved. *)
Lemma feed_starved m tok :
  machineOk m → in_int tok →
  starved (memory (globals m)) (waitingQueue (globals m)) ∧
    (¬ inMenu (phase m) → waitingQueue (globals m) = []) →
  starved (memory (globals (feed m tok))) (waitingQueue (globals (feed m tok))) ∧
    (¬ inMenu (phase (feed m tok)) → waitingQueue (globals (feed m tok)) = []).
Proof.
  intros (Hmem%poolOk_sizesInInt & Hq & _) Htok [Hst Hempty].
  unfold feed. destruct (phase m) as [|i n| |j| |] eqn:Hphase.
  - simpl. split; [done|]. intros _. apply Hempty. simpl. tauto.
  - assert (Hnil : waitingQueue (globals m) = []) by (apply Hempty; simpl; tauto).
    destruct (tok <=? 0); simpl; [by split|].
    rewrite Hnil. split; [|done]. intros j Hj. by apply elem_of_nil in Hj.
  - destruct (tok =? 1); [by split|]. destruct (tok =? 2); [by split|].
    destruct (tok =? 3); [by split|]. destruct (tok =? 4); [by split|].
    rewrite Hphase. by split.
  - destruct (Z.leb_spec tok 0); simpl; [by split|].
    pose proof (allocateJob_starved (Job.mk j tok) (globals m) Hmem) as Hst'.
    destruct (allocateJob _ _) as [g' out]. simpl in *. split; [by apply Hst'|done].
  - pose proof (deallocateJob_starved tok (globals m) Hmem Hq Hst) as Hst'.
    destruct (deallocateJob _ _) as [g' out]. by split.
  - rewrite Hphase. by split.
Qed.

Lemma run_starved inputs :
  Forall in_int inputs →
  starved (memory (globals (run inputs))) (waitingQueue (globals (run inputs))) ∧
  (¬ inMenu (phase (run inputs)) → waitingQueue (globals (run inputs)) = []).
Proof.
  induction inputs as [|tok inputs IH] using rev_ind; intros Hin.
  { split; [|done]. intros j Hj. by apply elem_of_nil in Hj. }
  apply Forall_app in Hin as [Hin Htok%Forall_inv].
  rewrite run_snoc. apply feed_starved; [by apply run_machineOk|done|by apply IH].
Qed.

(** X8.  In every state [main] can reach, a job is waiting only if it
    fits nowhere: no queued job has a size within the capacity of a free
    partition.  In particular, while sizes are still being read the queue
    is empty. *)
Theorem waiting_jobs_fit_nowhere (inputs : list Z) :
  Forall in_int inputs →
  (∀ j p, j ∈ waitingQueue (globals (run inputs)) →
          p ∈ memory (globals (run inputs)) →
          Partition.isFree p = true → Partition.size p < Job.jobSize j) ∧
  (¬ inMenu (phase (run inputs)) → waitingQueue (globals (run inputs)) = []).
Proof.
  intros Hin. destruct (run_starved inputs Hin) as [Hst Hempty].
  split; [|done]. intros j p Hj Hp Hfree.
  apply list_elem_of_lookup in Hp as [k Hk].
  destruct (Z.lt_ge_cases (Partition.size p) (Job.jobSize j)) as [|Hle]; [done|].
  by destruct (Hst j Hj k p).
Qed.

(** The theorem on a session that ends with one job waiting. *)
Lemma waiting_jobs_fit_nowhere_witness :
  let inputs := [2; 5; 10; 1; 9; 1; 7; 1; 3] in
  waitingQueue (globals (run inputs)) = [Job.mk 2 7] ∧
  (∀ j p, j ∈ waitingQueue (globals (run inputs)) →
          p ∈ memory (globals (run inputs)) →
          Partition.isFree p = true → Partition.size p < Job.jobSize j).
Proof.
  intros inputs. split; [reflexivity|].
  refine (proj1 (waiting_jobs_fit_nowhere inputs _)).
  repeat (apply List.Forall_cons; [unfold in_int, INT_MIN, INT_MAX; lia|]).
  apply List.Forall_nil.
Defined.

(** ** What a release gives to the queue *)

(** [deallocateJob] at the first partition in use by the job. *)
Lemma deallocateJob_at n g i p :
  memory g !! i = Some p →
  Partition.isFree p = false → Partition.jobNumber p = n →
  (∀ k q, (k < i)%nat → memory g !! k = Some q →
     ¬ (Partition.isFree q = false ∧ Partition.jobNumber q = n)) →
  deallocateJob n g =
  let g1 := {| memory := <[i := vacate p]> (memory g);
               waitingQueue := waitingQueue g;
               deallocatedJobs := deallocatedJobs g ++ [Job.mk n (Partition.jobSize p)] |} in
  ((tryAllocateWaiting g1).1,
   MsgDeallocated n (Partition.id p) :: (tryAllocateWaiting g1).2).
Proof.
  intros Hp Hused Hn Hfirst.
  assert (Hlen : length (take i (memory g)) = i).
  { apply length_take_le. apply lookup_lt_Some in Hp. lia. }
  assert (Hmem : <[i := vacate p]> (memory g)
                 = take i (memory g) ++ vacate p :: drop (S i) (memory g)).
  { rewrite (split_at _ _ _ Hp) at 1.
    rewrite <- Hlen at 1. by rewrite insert_app_r_alt, Nat.sub_diag by lia. }
  unfold deallocateJob. rewrite (split_at _ _ _ Hp) at 1.
  rewrite deallocateFrom_first.
  - simpl. by rewrite Hn, Hmem.
  - apply Forall_forall. intros q Hq%list_elem_of_In.
    apply list_elem_of_lookup in Hq as [k Hk].
    apply holds_false. apply (Hfirst k q).
    + apply lookup_lt_Some in Hk. rewrite length_take in Hk. lia.
    + rewrite lookup_take_Some in Hk. apply Hk.
  - by apply holds_true.
Qed.

Lemma alter_insert_list {A} (f : A → A) (l : list A) i x :
  (i < length l)%nat → alter f i (<[i := x]> l) = <[i := f x]> l.
Proof.
  intros Hi. apply list_eq. intros k. destruct (decide (i = k)) as [<-|Hne].
  - by rewrite list_lookup_alter_eq, !list_lookup_insert_eq.
  - by rewrite list_lookup_alter_ne, !list_lookup_insert_ne.
Qed.

(** The candidates of a pool in which partition [i] was replaced. *)
Lemma candidate_insert mem i x s k q :
  candidate (<[i := x]> mem) s k q → (k = i ∧ q = x) ∨ (k ≠ i ∧ candidate mem s k q).
Proof.
  intros (Hq & Hfree & Hle). apply list_lookup_insert_Some in Hq as [(-> & -> & _)|[Hne Hq]].
  - by left.
  - right. split; [done|]. by repeat split.
Qed.

Lemma sizesInInt_insert mem i x :
  sizesInInt mem → in_int (Partition.size x) → sizesInInt (<[i := x]> mem).
Proof. intros Hsizes Hx. by apply Forall_insert. Qed.

(** X9.  A release serves at most one waiting job, and serves the queue
    in order.  When no queued job fits a free partition before the release
    (as is the case in every state [main] reaches), [deallocateJob] hands
    the freed partition to the first queued job whose size is within its
    capacity, removes that job from the queue and leaves the other jobs
    queued in their order; when no queued job fits the freed partition it
    stays free and the queue is unchanged. *)
Theorem release_serves_first_fit (n : Z) (g : Globals) (i : nat) (p : Partition.t) :
  sizesInInt (memory g) →
  queueOk (waitingQueue g) →
  starved (memory g) (waitingQueue g) →
  memory g !! i = Some p →
  Partition.isFree p = false →
  Partition.jobNumber p = n →
  (∀ k q, (k < i)%nat → memory g !! k = Some q →
     ¬ (Partition.isFree q = false ∧ Partition.jobNumber q = n)) →
  let freed := Partition.mk (Partition.id p) (Partition.size p) true (-1) 0 0 in
  let hist := deallocatedJobs g ++ [Job.mk n (Partition.jobSize p)] in
  ((∀ j, j ∈ waitingQueue g → Partition.size p < Job.jobSize j) →
   deallocateJob n g =
     ({| memory := <[i := freed]> (memory g);
         waitingQueue := waitingQueue g;
         deallocatedJobs := hist |},
      [MsgDeallocated n (Partition.id p)])) ∧
  (∀ q1 j q2,
     waitingQueue g = q1 ++ j :: q2 →
     (∀ j', j' ∈ q1 → Partition.size p < Job.jobSize j') →
     Job.jobSize j ≤ Partition.size p →
     deallocateJob n g =
       ({| memory := <[i := occupy j freed]> (memory g);
           waitingQueue := q1 ++ q2;
           deallocatedJobs := hist |},
        [MsgDeallocated n (Partition.id p);
         MsgWaitingAllocated (Job.jobNumber j) (Partition.id p)])).
Proof.
  intros Hsizes Hq Hst Hp Hused Hn Hfirst freed hist.
  assert (Hi : (i < length (memory g))%nat) by (by eapply lookup_lt_Some).
  assert (Hsize : in_int (Partition.size p)).
  { unfold sizesInInt in Hsizes. rewrite Forall_lookup in Hsizes. by eapply Hsizes. }
  assert (Hsizes1 : sizesInInt (<[i := freed]> (memory g)))
    by (by apply sizesInInt_insert).
  (* the only partition a queued job can be a candidate for is the freed one *)
  assert (Honly : ∀ j s k q, j ∈ waitingQueue g → s = Job.jobSize j →
            candidate (<[i := freed]> (memory g)) s k q → k = i ∧ q = freed).
  { intros j s k q Hj -> [Hc|[_ Hc]]%candidate_insert; [done|].
    by destruct (Hst j Hj k q). }
  rewrite (deallocateJob_at n g i p Hp Hused Hn Hfirst).
  change (vacate p) with freed. cbv zeta. fold hist.
  rewrite tryAllocateWaiting_sweepLoop. simpl.
  split.
  - intros Hbig. rewrite sweepLoop_starved; [done|done|done|].
    intros j Hj k q Hc. destruct (Honly j _ k q Hj eq_refl Hc) as [-> ->].
    destruct Hc as (_ & _ & Hle). simpl in Hle. specialize (Hbig j Hj). lia.
  - intros q1 j q2 Hqueue Hbig Hfit. rewrite Hqueue in *.
    apply Forall_app in Hq as [Hq1 Hq2]. apply Forall_cons_iff in Hq2 as [Hj Hq2].
    rewrite sweepLoop_starved_prefix; [|done|done|].
    2: { intros j' Hj' k q Hc.
         destruct (Honly j' _ k q ltac:(apply elem_of_app; by left) eq_refl Hc) as [-> ->].
         destruct Hc as (_ & _ & Hle). simpl in Hle. specialize (Hbig j' Hj'). lia. }
    simpl.
    rewrite (bestFitScan_only (Job.jobSize j) _ i freed Hj Hsizes1).
    2: { repeat split; [by apply list_lookup_insert_eq|done]. }
    2: { intros k q Hc.
         by destruct (Honly j _ k q ltac:(apply elem_of_app; right; apply list_elem_of_here)
                        eq_refl Hc). }
    destruct (Z.eqb_spec (Z.of_nat i) (-1)); [lia|]. simpl.
    rewrite Nat2Z.id, alter_insert_list by done.
    rewrite sweepLoop_starved; [|by apply sizesInInt_insert|done|].
    + unfold idAt. by rewrite list_lookup_insert_eq.
    + intros j' Hj' k q Hc. pose proof Hc as (_ & Hfree & _).
      apply candidate_insert in Hc as [[-> ->]|[Hne Hc]]; [done|].
      apply (Hst j' ltac:(apply elem_of_app; right; by apply list_elem_of_further)
               k q Hc).
Qed.

(** The theorem at a full pool {5, 10} with jobs of sizes 8, 3 and 4
    waiting: releasing the job in the partition of capacity 5 serves the
    job of size 3, the first that fits, and only that one. *)
Lemma release_serves_first_fit_witness :
  let g := {| memory := [Partition.mk 1 5 false 1 5 0; Partition.mk 2 10 false 2 10 0];
              waitingQueue := [Job.mk 3 8; Job.mk 4 3; Job.mk 5 4];
              deallocatedJobs := [] |} in
  deallocateJob 1 g =
    ({| memory := [Partition.mk 1 5 false 4 3 2; Partition.mk 2 10 false 2 10 0];
        waitingQueue := [Job.mk 3 8; Job.mk 5 4];
        deallocatedJobs := [Job.mk 1 5] |},
     [MsgDeallocated 1 1; MsgWaitingAllocated 4 1]).
Proof.
  intros g.
  refine (proj2 (release_serves_first_fit 1 g 0%nat (Partition.mk 1 5 false 1 5 0)
                   _ _ _ _ _ _ _) [Job.mk 3 8] (Job.mk 4 3) [Job.mk 5 4] _ _ _).
  - repeat (apply List.Forall_cons; [unfold in_int, INT_MIN, INT_MAX; simpl; lia|]).
    apply List.Forall_nil.
  - repeat (apply List.Forall_cons; [simpl; lia|]). apply List.Forall_nil.
  - intros j Hj k q (Hq & Hfree & _).
    destruct k as [|[|k]]; simpl in Hq; [| |discriminate Hq];
      injection Hq as <-; discriminate Hfree.
  - reflexivity.
  - reflexivity.
  - reflexivity.
  - intros k q Hk. lia.
  - reflexivity.
  - intros j' Hj'. apply list_elem_of_singleton in Hj' as ->. simpl. lia.
  - simpl. lia.
Defined.

(** ** The figures of [showStatus] *)

Lemma usedFragments_cons p mem :
  usedFragments (p :: mem) =
  if Partition.isFree p then usedFragments mem
  else Partition.internalFragment p :: usedFragments mem.
Proof.
  unfold usedFragments. rewrite filter_cons.
  destruct (decide _) as [Hp|Hp]; destruct (Partition.isFree p); done.
Qed.

(** The first loop of [showStatus], from any values of its two counters. *)
Lemma fragmentStep_fold mem : ∀ t c,
  fold_left fragmentStep mem (wrap t, wrap c) =
  (wrap (t + sumZ (usedFragments mem)),
   wrap (c + Z.of_nat (length (usedFragments mem)))).
Proof.
  induction mem as [|p mem IH]; intros t c.
  { simpl. by rewrite !Z.add_0_r. }
  rewrite usedFragments_cons. simpl. unfold fragmentStep at 2.
  destruct (Partition.isFree p); [apply IH|]. simpl fst. simpl snd.
  unfold int_add. rewrite !wrap_add_l, IH. simpl length. unfold sumZ. simpl.
  f_equal; f_equal; lia.
Qed.

Lemma sumZ_nonneg l : Forall (λ x, 0 ≤ x) l → 0 ≤ sumZ l.
Proof.
  induction 1 as [|x l Hx _ IH]; [done|]. unfold sumZ in *. simpl. lia.
Qed.

Lemma rows_fragment_column mem :
  sumZ (row_fragment <$> (showRow <$> mem)) = sumZ (usedFragments mem).
Proof.
  induction mem as [|p mem IH]; [done|].
  rewrite usedFragments_cons. unfold sumZ in *. csimpl.
  destruct (Partition.isFree p); simpl; lia.
Qed.

Lemma usedFragments_all_free mem :
  (∀ p, p ∈ mem → Partition.isFree p = true) → usedFragments mem = [].
Proof.
  induction mem as [|p mem IH]; intros Hfree; [done|].
  rewrite usedFragments_cons, (Hfree p) by apply list_elem_of_here.
  apply IH. intros q Hq. apply Hfree. by apply list_elem_of_further.
Qed.

(** X10.  The total [showStatus] prints is the sum of the fragments of
    the partitions in use, computed in [int]: it is the sum of the
    "Int.Fragment" column of the table it has just printed (a free
    partition shows [0]).  When no fragment is negative and the sum fits
    an [int], the total is exactly that sum and is not negative. *)
Theorem status_total_is_the_column_sum (g : Globals) :
  totalIF (showStatus g) = wrap (sumZ (row_fragment <$> rows (showStatus g))) ∧
  totalIF (showStatus g) = wrap (sumZ (usedFragments (memory g))) ∧
  (Forall fragOk (memory g) → sumZ (usedFragments (memory g)) ≤ INT_MAX →
   totalIF (showStatus g) = sumZ (usedFragments (memory g)) ∧
   0 ≤ totalIF (showStatus g)).
Proof.
  assert (Htotal : totalIF (showStatus g) = wrap (sumZ (usedFragments (memory g)))).
  { unfold showStatus. pose proof (fragmentStep_fold (memory g) 0 0) as Hfold.
    change (wrap 0) with 0 in Hfold. rewrite Hfold. simpl. done. }
  assert (Hrows : rows (showStatus g) = showRow <$> memory g).
  { unfold showStatus. by destruct (fold_left fragmentStep _ _). }
  split; [by rewrite Hrows, rows_fragment_column|]. split; [done|].
  intros Hfrag Hsum.
  assert (Hpos : 0 ≤ sumZ (usedFragments (memory g))).
  { apply sumZ_nonneg. unfold usedFragments. apply Forall_fmap.
    apply list.Forall_forall. intros p [_ Hp]%list_elem_of_filter.
    rewrite list.Forall_forall in Hfrag. by destruct (Hfrag p Hp). }
  rewrite Htotal, wrap_in_int; [done|].
  unfold in_int, INT_MIN, INT_MAX in *. lia.
Qed.

(** X11.  The average fragmentation [showStatus] prints divides by the
    number of partitions in use and never by zero: when every partition
    is free it is [0.0]; when between one and [INT_MAX] partitions are in
    use it is the printed total over their number, in binary64. *)
Theorem average_fragmentation_guard (g : Globals) :
  ((∀ p, p ∈ memory g → Partition.isFree p = true) →
   avgInternal (showStatus g) = to_double 0) ∧
  (∀ used, used = Z.of_nat (length (usedFragments (memory g))) →
     0 < used ≤ INT_MAX →
     avgInternal (showStatus g) =
       PrimFloat.div (to_double (totalIF (showStatus g))) (to_double used)).
Proof.
  pose proof (fragmentStep_fold (memory g) 0 0) as Hfold.
  change (wrap 0) with 0 in Hfold. rewrite !Z.add_0_l in Hfold.
  split.
  - intros Hfree.
    assert (Hnone : usedFragments (memory g) = []).
    { by apply usedFragments_all_free. }
    unfold showStatus. rewrite Hfold, Hnone. done.
  - intros used -> Hused. unfold showStatus. rewrite Hfold. simpl.
    rewrite (wrap_in_int (Z.of_nat _)) by (unfold in_int, INT_MIN, INT_MAX in *; lia).
    by destruct (Z.eqb_spec (Z.of_nat (length (usedFragments (memory g)))) 0); [lia|].
Qed.

(** The theorem at a pool {5, 10} holding jobs of sizes 4 and 7. *)
Lemma average_fragmentation_guard_witness :
  let g := {| memory := [Partition.mk 1 5 false 1 4 1; Partition.mk 2 10 false 2 7 3];
              waitingQueue := []; deallocatedJobs := [] |} in
  avgInternal (showStatus g) = to_double 2.
Proof.
  intros g.
  refine (eq_trans (proj2 (average_fragmentation_guard g) 2 _ _) _).
  - reflexivity.
  - unfold INT_MAX. lia.
  - reflexivity.
Defined.

(** ** The queue is in arrival order *)

Lemma increasing_app l1 l2 :
  increasing (l1 ++ l2) ↔
  (∀ x1 x2, x1 ∈ l1 → x2 ∈ l2 → x1 < x2) ∧ increasing l1 ∧ increasing l2.
Proof.
  induction l1 as [|x l1 IH]; simpl.
  - split; [intros H; repeat split; [|done]|by intros (_ & _ & H)].
    intros x1 x2 Hx1. by apply elem_of_nil in Hx1.
  - rewrite IH, list.Forall_app, !list.Forall_forall. split.
    + intros ([Hx1 Hx2] & Hlt & Hl1 & Hl2). repeat split; try done.
      intros x1 x2 [->|Hin]%elem_of_cons Hin2; [by apply Hx2|by apply Hlt].
    + intros (Hlt & [Hx Hl1] & Hl2). repeat split; try done.
      * intros y Hy. apply Hlt; [apply list_elem_of_here|done].
      * intros x1 x2 Hx1 Hx2. apply Hlt; [by apply list_elem_of_further|done].
Qed.

Lemma sorted_remove_middle (l1 l2 : list Z) x :
  increasing (l1 ++ x :: l2) → increasing (l1 ++ l2).
Proof.
  rewrite !increasing_app. simpl.
  intros (Hlt & Hl1 & _ & Hl2). split; [|done].
  intros x1 x2 Hx1 Hx2. apply Hlt; [done|]. by apply list_elem_of_further.
Qed.

(** The sweep keeps the queue sorted by job number. *)
Lemma sweepLoop_sorted queue : ∀ mem remaining out,
  increasing (queued (remaining ++ queue)) →
  increasing (queued (sweepLoop queue mem remaining out).1.2).
Proof.
  induction queue as [|j queue IH]; intros mem remaining out Hsorted; simpl.
  { by rewrite app_nil_r in Hsorted. }
  destruct (negb _); apply IH.
  - unfold queued in *. rewrite fmap_app in *. csimpl in Hsorted.
    by eapply sorted_remove_middle.
  - by rewrite <- app_assoc.
Qed.

Lemma deallocateJob_sorted n g :
  increasing (queued (waitingQueue g)) →
  increasing (queued (waitingQueue (deallocateJob n g).1)).
Proof.
  intros Hsorted. unfold deallocateJob.
  destruct (first_holder n (memory g)) as [Hall|(before & p & after & Heq & Hbefore & Hp)].
  - by rewrite deallocateFrom_none.
  - rewrite Heq, deallocateFrom_first by done. simpl.
    rewrite tryAllocateWaiting_sweepLoop. simpl. by apply sweepLoop_sorted.
Qed.

(** A number already announced is below the number whose size is being
    asked for. *)
Lemma submitted_below_pending m j x :
  issued m = Z.of_nat <$> seq 1 (length (issued m)) →
  phase m = ReadJobSize j →
  x ∈ submitted (output m) → x < j.
Proof.
  unfold issued. intros Hexact Hphase Hx. rewrite Hphase in Hexact. simpl in Hexact.
  assert (Hnth : ∀ i y, (submitted (output m) ++ [j]) !! i = Some y → y = Z.of_nat i + 1).
  { intros i y. rewrite Hexact, list_lookup_fmap.
    destruct (seq 1 _ !! i) as [k|] eqn:Hk; [|done].
    apply lookup_seq in Hk as [-> _]. simpl. intros [= <-]. lia. }
  apply list_elem_of_lookup in Hx as [i Hi].
  pose proof (lookup_lt_Some _ _ _ Hi) as Hlt.
  rewrite (Hnth i x) by (by apply lookup_app_l_Some).
  rewrite (Hnth (length (submitted (output m))) j)
    by (by rewrite list_lookup_middle).
  lia.
Qed.

Lemma run_queue_sorted inputs :
  Z.of_nat (length (issued (run inputs))) ≤ INT_MAX →
  increasing (queued (waitingQueue (globals (run inputs)))).
Proof.
  induction inputs as [|tok inputs IH] using rev_ind; intros HK.
  { constructor. }
  rewrite run_snoc in *.
  pose proof (issued_length_mono (run inputs) tok) as Hmono.
  assert (HK' : Z.of_nat (length (issued (run inputs))) ≤ INT_MAX) by lia.
  specialize (IH HK'). destruct (run_liveOk inputs HK') as [_ Hlive].
  destruct (run_numbering inputs) as [Hnum _]. rewrite numbering_exact in Hnum by done.
  set (m := run inputs) in *. clearbody m. clear HK Hmono.
  unfold feed. destruct (phase m) as [|i n| |j| |] eqn:Hphase.
  - exact IH.
  - by destruct (tok <=? 0).
  - destruct (tok =? 1); [done|]. destruct (tok =? 2); [done|].
    destruct (tok =? 3); [done|]. by destruct (tok =? 4).
  - destruct (tok <=? 0); [done|]. unfold allocateJob.
    destruct (_ =? -1); [|done]. simpl.
    unfold queued. rewrite fmap_app. apply increasing_app.
    split; [|split; [done|repeat constructor]].
    intros x1 x2 Hx1 ->%list_elem_of_singleton. simpl.
    apply (submitted_below_pending m); [done|done|].
    apply Hlive. unfold live. apply elem_of_app. by right.
  - pose proof (deallocateJob_sorted tok (globals m) IH) as Hsorted.
    by destruct (deallocateJob _ _).
  - done.
Qed.

(** X12.  The waiting queue is always in arrival order: while no more
    than [INT_MAX] job numbers have been assigned, the job numbers in the
    queue are strictly increasing from head to tail.  New jobs join at the
    tail and a sweep removes jobs without reordering the rest. *)
Theorem queue_is_in_arrival_order (inputs : list Z) :
  Z.of_nat (length (issued (run inputs))) ≤ INT_MAX →
  increasing (Job.jobNumber <$> waitingQueue (globals (run inputs))).
Proof. apply run_queue_sorted. Qed.

(** The theorem on a session that leaves jobs 2 and 4 waiting. *)
Lemma queue_is_in_arrival_order_witness :
  let inputs := [1; 5; 1; 5; 1; 9; 1; 3; 1; 7; 2; 1] in
  Job.jobNumber <$> waitingQueue (globals (run inputs)) = [2; 4] ∧
  increasing (Job.jobNumber <$> waitingQueue (globals (run inputs))).
Proof.
  intros inputs. split; [reflexivity|].
  apply (queue_is_in_arrival_order inputs). vm_compute. discriminate.
Defined.

(** ** A placed job stays where it is *)

Lemma place_used_kept job mem k p :
  mem !! k = Some p → Partition.isFree p = false →
  bestFitScan (Job.jobSize job) mem ≠ -1 →
  alter (occupy job) (Z.to_nat (bestFitScan (Job.jobSize job) mem)) mem !! k = Some p.
Proof.
  intros Hp Hused (i & q & -> & Hq & Hfree & _)%bestFitScan_found.
  rewrite Nat2Z.id, list_lookup_alter_ne; [done|]. intros ->. congruence.
Qed.

Lemma sweepLoop_used_kept queue : ∀ mem remaining out k p,
  mem !! k = Some p → Partition.isFree p = false →
  (sweepLoop queue mem remaining out).1.1 !! k = Some p.
Proof.
  induction queue as [|j queue IH]; intros mem remaining out k p Hp Hused; [done|].
  simpl. destruct (Z.eqb_spec (bestFitScan (Job.jobSize j) mem) (-1)); simpl.
  - by apply IH.
  - apply IH; [|done]. by apply place_used_kept.
Qed.

(** X14.  A placed job is never moved, evicted or overwritten: whatever
    the next input is, a partition in use stays exactly as it is, unless
    that input is the release of the very job it holds.  There is no way
    back from a partition to the waiting queue. *)
Theorem placed_jobs_stay_put (m : Machine) (tok : Z) (k : nat) (p : Partition.t) :
  memory (globals m) !! k = Some p →
  Partition.isFree p = false →
  memory (globals (feed m tok)) !! k = Some p ∨
  (phase m = ReadJobNumber ∧ tok = Partition.jobNumber p).
Proof.
  intros Hp Hused. unfold feed. destruct (phase m) as [|i n| |j| |] eqn:Hphase.
  - by left.
  - left. destruct (tok <=? 0); simpl; [done|]. by apply lookup_app_l_Some.
  - left. destruct (tok =? 1); [done|]. destruct (tok =? 2); [done|].
    destruct (tok =? 3); [done|]. by destruct (tok =? 4).
  - left. destruct (tok <=? 0); [done|]. unfold allocateJob.
    destruct (Z.eqb_spec (bestFitScan (Job.jobSize (Job.mk j tok)) (memory (globals m))) (-1));
      [done|].
    simpl. by apply (place_used_kept (Job.mk j tok)).
  - unfold deallocateJob.
    destruct (first_holder tok (memory (globals m)))
      as [Hall|(before & p0 & after & Heq & Hbefore & Hp0)].
    + left. by rewrite deallocateFrom_none.
    + rewrite Heq at 1. rewrite deallocateFrom_first by done. simpl.
      rewrite tryAllocateWaiting_sweepLoop. simpl.
      rewrite Heq in Hp.
      destruct (decide (k = length before)) as [->|Hne].
      * right. split; [done|]. rewrite list_lookup_middle in Hp by done.
        injection Hp as <-. by apply holds_true in Hp0 as [_ <-].
      * left. apply sweepLoop_used_kept; [|done].
        apply lookup_app_Some in Hp as [Hp|[Hge Hp]].
        -- by apply lookup_app_l_Some.
        -- rewrite lookup_app_r by done.
           destruct (k - length before)%nat as [|k'] eqn:Hk; [lia|]. done.
  - by left.
Qed.

(** The theorem where a job is submitted while another is placed. *)
Lemma placed_jobs_stay_put_witness :
  let m := run [2; 5; 10; 1; 4; 1] in
  memory (globals (feed m 7)) !! 0%nat = Some (Partition.mk 1 5 false 1 4 1).
Proof.
  intros m.
  destruct (placed_jobs_stay_put m 7 0%nat (Partition.mk 1 5 false 1 4 1)) as [H|[H _]].
  - reflexivity.
  - reflexivity.
  - exact H.
  - discriminate H.
Defined.
